(** * go-sio: the line-filtering stream reader

    A shallow embedding of [s_reader.go], [reader_closer.go] and the tee:
    [split], [NewStreamReader], [StreamReader.Read], the JSON line filter,
    the reader/closer pair and [TeeReaderCloser], together with models of
    the parts of the Go standard library they are built on
    ([bufio.Scanner], [bytes.Buffer], [io.Reader], [io.TeeReader]). *)

From Stdlib Require Import Ascii String.
From Stdlib Require Import List Arith Lia Bool.
From Equations Require Import Equations.
Import ListNotations.

Open Scope list_scope.

(** The equation of a scrutinee, kept for the termination proofs. *)
Definition inspect {A : Type} (x : A) : {y : A | x = y} := exist _ x eq_refl.

(** ** Bytes, strings and errors *)

(** A Go [[]byte] and a Go [string] are both sequences of bytes. *)
Definition byte := ascii.
Definition bytes := list byte.

Definition nl : byte := "010"%char.
Definition dq : byte := "034"%char.

Definition str (s : string) : bytes := list_ascii_of_string s.

Definition byte_eqb (a b : byte) : bool := Ascii.eqb a b.

Definition bytes_eqb (a b : bytes) : bool :=
  if list_eq_dec ascii_dec a b then true else false.

(** Go [error] values are compared by identity.  [io_EOF] and
    [ErrNilReader] are the two package-level values the code names; the
    errors of [bufio] and [io.ErrNoProgress] are the ones a
    [bufio.Scanner] sets by itself; every other error (returned by a
    filter or by the source) is identified by a number. *)
Inductive error : Type :=
| io_EOF
| ErrNilReader
| bufio_ErrTooLong
| bufio_ErrAdvanceTooFar
| bufio_ErrBadReadCount
| io_ErrNoProgress
| ErrOther (id : nat).

Definition error_eq_dec (a b : error) : {a = b} + {a <> b}.
Proof. decide equality. apply Nat.eq_dec. Defined.

Definition isSome {A} (o : option A) : bool :=
  match o with Some _ => true | None => false end.

Definition isNone {A} (o : option A) : bool := negb (isSome o).

(** ** io.Reader

    The upstream source is a script of what it has to give: each entry is
    a run of bytes the source has ready and the error it returns with the
    last of them ([None] is Go's [nil]).  A call of [Read] with a
    destination of [n] bytes takes the run at the head when it fits, with
    its error, and otherwise the first [n] bytes of it with a nil error,
    the rest staying at the head.  An entry with no bytes and no error is
    a call that returns [(0, nil)].  When the script is used up, every
    further call returns no bytes and [io.EOF].  A source of this kind
    keeps the contract of [io.Reader] (it never reports more bytes than
    the destination holds), and it comes to an end. *)
Definition Reader := list (bytes * option error).

Definition Reader_Read (rd : Reader) (n : nat)
  : (bytes * option error) * Reader :=
  match rd with
  | [] => (([], Some io_EOF), [])
  | (c, e) :: rd' =>
      if length c <=? n then ((c, e), rd')
      else ((firstn n c, None), (skipn n c, e) :: rd')
  end.

(** [strings.NewReader(data)]: the bytes, in slices as long as the
    destinations, then [io.EOF] with no bytes. *)
Definition strings_NewReader (data : bytes) : Reader :=
  match data with
  | [] => []
  | _ :: _ => [(data, None)]
  end.

(** The bytes a source still has to give before its first error, and the
    error it ends on. *)
Fixpoint script_bytes (rd : Reader) : bytes :=
  match rd with
  | [] => []
  | (c, None) :: rd' => c ++ script_bytes rd'
  | (c, Some _) :: _ => c
  end.

Fixpoint script_err (rd : Reader) : error :=
  match rd with
  | [] => io_EOF
  | (_, None) :: rd' => script_err rd'
  | (_, Some e) :: _ => e
  end.

Fixpoint script_size (rd : Reader) : nat :=
  match rd with
  | [] => 0
  | (c, _) :: rd' => S (length c + script_size rd')
  end.

(** ** bytes.IndexByte and the split function *)

Fixpoint IndexByte (data : bytes) (c : byte) : option nat :=
  match data with
  | [] => None
  | x :: rest =>
      if byte_eqb x c then Some 0
      else match IndexByte rest c with
           | Some i => Some (S i)
           | None => None
           end
  end.

(** [split(data, atEOF)]: the advance, the token ([None] is a nil token)
    and the error. *)
Definition split (data : bytes) (atEOF : bool)
  : nat * option bytes * option error :=
  if atEOF && (length data =? 0) then (0, None, None)
  else match IndexByte data nl with
       | Some i => (i + 1, Some (firstn (i + 1) data), None)
       | None =>
           if atEOF then (length data, Some data, None)
           else (0, None, None)
       end.

(** ** bufio.Scanner

    The scanner as [bufio.NewScanner] makes it and [Split(split)] sets it:
    the source, the length of its buffer ([len(s.buf)]), the index
    [s.start], the bytes read and not yet consumed
    ([s.buf[s.start:s.end]], so that [s.end] is [sc_start] plus their
    number), the last token and the sticky error.  The bytes of the buffer
    outside [s.start..s.end] are never looked at and are not kept.
    [s.maxTokenSize] stays [MaxScanTokenSize], as [Scanner.Buffer] is never
    called.  Two fields have no part here: [s.done] is set only when the
    split function returns [ErrFinalToken], and [s.empties] counts tokens
    that come without an advance; [split] returns no error and every token
    of it advances. *)
Definition startBufSize : nat := 4096.
Definition MaxScanTokenSize : nat := 64 * 1024.
Definition maxConsecutiveEmptyReads : nat := 100.

Arguments startBufSize : simpl never.
Arguments MaxScanTokenSize : simpl never.
Arguments maxConsecutiveEmptyReads : simpl never.

Record Scanner : Type := mkScanner {
  sc_r : Reader;
  sc_buflen : nat;
  sc_start : nat;
  sc_buf : bytes;
  sc_tok : bytes;
  sc_err : option error
}.

Definition NewScanner (rd : Reader) : Scanner :=
  {| sc_r := rd; sc_buflen := 0; sc_start := 0; sc_buf := [];
     sc_tok := []; sc_err := None |}.

(** [setErr]: the first error other than [io.EOF] is kept. *)
Definition setErr (old : option error) (e : error) : option error :=
  match old with
  | None | Some io_EOF => Some e
  | Some _ => old
  end.

Definition Scanner_setErr (s : Scanner) (e : error) : Scanner :=
  {| sc_r := sc_r s; sc_buflen := sc_buflen s; sc_start := sc_start s;
     sc_buf := sc_buf s; sc_tok := sc_tok s; sc_err := setErr (sc_err s) e |}.

(** The first part of a turn of the loop of [Scan]: with bytes in the
    buffer, or at the end of the input, the split function is asked for a
    token.  [inl] is a return of [Scan], [inr] the state the turn goes on
    with.  ([s.advance] refuses an advance beyond the bytes held.) *)
Definition Scanner_token (s : Scanner) : (bool * Scanner) + Scanner :=
  if (0 <? length (sc_buf s)) || isSome (sc_err s) then
    match split (sc_buf s) (isSome (sc_err s)) with
    | (_, _, Some e) => inl (false, Scanner_setErr s e)
    | (advance, token, None) =>
        if length (sc_buf s) <? advance
        then inl (false, Scanner_setErr s bufio_ErrAdvanceTooFar)
        else
          let s1 := {| sc_r := sc_r s; sc_buflen := sc_buflen s;
                       sc_start := sc_start s + advance;
                       sc_buf := skipn advance (sc_buf s);
                       sc_tok := match token with
                                 | Some t => t
                                 | None => []
                                 end;
                       sc_err := sc_err s |} in
          match token with
          | Some _ => inl (true, s1)
          | None => inr s1
          end
    end
  else inr s.

(** The bytes held are moved to the front of the buffer when it is full
    or more than half of it is free at the front. *)
Definition Scanner_shift (s : Scanner) : Scanner :=
  if (0 <? sc_start s)
     && ((sc_start s + length (sc_buf s) =? sc_buflen s)
         || (sc_buflen s / 2 <? sc_start s))
  then {| sc_r := sc_r s; sc_buflen := sc_buflen s; sc_start := 0;
          sc_buf := sc_buf s; sc_tok := sc_tok s; sc_err := sc_err s |}
  else s.

(** A full buffer is doubled, up to [MaxScanTokenSize]; a full buffer of
    that size is the end of the scan, with [ErrTooLong].  (The other test
    of the source, [len(s.buf) > maxInt/2], is true only of buffers that
    the first test has caught.) *)
Definition Scanner_grow (s : Scanner) : (bool * Scanner) + Scanner :=
  if sc_start s + length (sc_buf s) =? sc_buflen s then
    if MaxScanTokenSize <=? sc_buflen s
    then inl (false, Scanner_setErr s bufio_ErrTooLong)
    else
      let newSize := sc_buflen s * 2 in
      let newSize := if newSize =? 0 then startBufSize else newSize in
      let newSize := Nat.min newSize MaxScanTokenSize in
      inr {| sc_r := sc_r s; sc_buflen := newSize; sc_start := 0;
             sc_buf := sc_buf s; sc_tok := sc_tok s; sc_err := sc_err s |}
  else inr s.

(** The loop that reads, [for loop := 0; ; { ... }]: the source is read
    into the free end of the buffer, of [space] bytes, until a call gives
    bytes or an error; [left] is [maxConsecutiveEmptyReads] less [loop],
    the number of calls that may still come back with nothing.  The
    result is the bytes that went into the buffer, the error to set and
    the source after the calls. *)
Fixpoint read_loop (left : nat) (rd : Reader) (space : nat)
  : bytes * option error * Reader :=
  let '((got, e), rd') := Reader_Read rd space in
  if space <? length got then ([], Some bufio_ErrBadReadCount, rd')
  else match e with
       | Some e' => (got, Some e', rd')
       | None =>
           if 0 <? length got then (got, None, rd')
           else match left with
                | 0 => ([], Some io_ErrNoProgress, rd')
                | S left' => read_loop left' rd' space
                end
       end.

Definition Scanner_fill (s : Scanner) : Scanner :=
  let '(got, e, rd') :=
    read_loop maxConsecutiveEmptyReads (sc_r s)
      (sc_buflen s - (sc_start s + length (sc_buf s))) in
  {| sc_r := rd'; sc_buflen := sc_buflen s; sc_start := sc_start s;
     sc_buf := sc_buf s ++ got; sc_tok := sc_tok s;
     sc_err := match e with
               | Some e' => setErr (sc_err s) e'
               | None => sc_err s
               end |}.

(** One turn of the loop of [Scan]: [inl] is a return, [inr] the state the
    loop goes on with. *)
Definition Scan_iter (s : Scanner) : (bool * Scanner) + Scanner :=
  match Scanner_token s with
  | inl r => inl r
  | inr s1 =>
      if isSome (sc_err s1) then
        inl (false, {| sc_r := sc_r s1; sc_buflen := sc_buflen s1;
                       sc_start := 0; sc_buf := [];
                       sc_tok := sc_tok s1; sc_err := sc_err s1 |})
      else
        match Scanner_grow (Scanner_shift s1) with
        | inl r => inl r
        | inr s2 => inr (Scanner_fill s2)
        end
  end.

(** The loop ends: once the error is set the next turn returns, and a
    turn that reads and sets no error has taken bytes from the source. *)
Definition scan_fuel (s : Scanner) : nat :=
  match sc_err s with
  | Some _ => 0
  | None => S (script_size (sc_r s))
  end.

Lemma read_loop_eq left rd space :
  read_loop left rd space =
  let '((got, e), rd') := Reader_Read rd space in
  if space <? length got then ([], Some bufio_ErrBadReadCount, rd')
  else match e with
       | Some e' => (got, Some e', rd')
       | None =>
           if 0 <? length got then (got, None, rd')
           else match left with
                | 0 => ([], Some io_ErrNoProgress, rd')
                | S left' => read_loop left' rd' space
                end
       end.
Proof. destruct left; reflexivity. Qed.

Lemma Reader_Read_spec rd n got e rd' :
  Reader_Read rd n = ((got, e), rd') ->
  length got <= n
  /\ script_size rd' + length got <= script_size rd
  /\ (got = [] -> e = None -> n = 0 \/ script_size rd' < script_size rd)
  /\ match e with
     | None => script_bytes rd = got ++ script_bytes rd'
               /\ script_err rd' = script_err rd
     | Some e' => script_bytes rd = got /\ script_err rd = e'
     end.
Proof.
  destruct rd as [|[c e0] rd0]; simpl.
  - intros H; inversion H; subst. simpl.
    split; [lia | split; [lia | split; [discriminate | auto]]].
  - destruct (length c <=? n) eqn:El.
    + apply Nat.leb_le in El. intros H; inversion H; subst.
      split; [exact El | split; [lia | split; [intros; right; lia|]]].
      destruct e; auto.
    + apply Nat.leb_gt in El. intros H; inversion H; subst.
      split; [rewrite length_firstn; lia|].
      split; [simpl; rewrite length_firstn, length_skipn; lia|].
      split.
      * intros Hn _. left. destruct n; [reflexivity|].
        destruct c; [simpl in El; lia | discriminate].
      * simpl. destruct e0; [|rewrite app_assoc]; rewrite firstn_skipn; auto.
Qed.

(** What the loop that reads gives: bytes that fit, and either bytes with
    no error, or the end of the source with its error, or too many calls
    that gave nothing. *)
Lemma read_loop_spec left : forall rd space got e rd',
  read_loop left rd space = (got, e, rd') ->
  length got <= space
  /\ match e with
     | None => got <> [] /\ script_bytes rd = got ++ script_bytes rd'
               /\ script_err rd' = script_err rd
               /\ script_size rd' < script_size rd
     | Some e' =>
         (script_bytes rd = got /\ script_err rd = e')
         \/ (e' = io_ErrNoProgress /\ got = [])
     end.
Proof.
  induction left as [|left IH]; intros rd space got e rd';
    rewrite read_loop_eq;
    destruct (Reader_Read rd space) as [[g e0] rd0] eqn:ER;
    destruct (Reader_Read_spec _ _ _ _ _ ER) as (Hl & Hsz & _ & Hm);
    (destruct (space <? length g) eqn:Eb;
       [apply Nat.ltb_lt in Eb; lia|]);
    (destruct e0 as [e1|];
       [intros H; inversion H; subst; split; [exact Hl | left; exact Hm]|]);
    destruct Hm as [Hb He];
    (destruct (0 <? length g) eqn:E0;
       [apply Nat.ltb_lt in E0; intros H; inversion H; subst;
        split; [exact Hl|]; repeat split; auto;
        [intros ->; simpl in E0; lia | lia]|]);
    apply Nat.ltb_ge in E0;
    assert (g = []) by (destruct g; [reflexivity | simpl in E0; lia]);
    subst g; simpl in Hb.
  - intros H; inversion H; subst. split; [lia | right; auto].
  - intros H. destruct (IH _ _ _ _ _ H) as [Hl' Hm']. split; [exact Hl'|].
    destruct e as [e'|].
    + rewrite Hb, He in *. exact Hm'.
    + destruct Hm' as (Hg & Hb' & He' & Hs').
      repeat split; auto; try congruence. simpl in Hsz. lia.
Qed.

Lemma Scanner_token_spec s :
  match Scanner_token s with
  | inl (true, s') =>
      sc_tok s' <> [] /\ sc_buf s = sc_tok s' ++ sc_buf s'
      /\ sc_start s' = sc_start s + length (sc_tok s')
      /\ sc_r s' = sc_r s /\ sc_err s' = sc_err s
      /\ sc_buflen s' = sc_buflen s
      /\ split (sc_buf s) (isSome (sc_err s))
         = (length (sc_tok s'), Some (sc_tok s'), None)
  | inl (false, _) => False
  | inr s' =>
      sc_buf s' = sc_buf s /\ sc_start s' = sc_start s
      /\ sc_r s' = sc_r s /\ sc_err s' = sc_err s
      /\ sc_buflen s' = sc_buflen s
      /\ IndexByte (sc_buf s) nl = None
      /\ (sc_err s <> None -> sc_buf s = [])
  end.
Proof.
  unfold Scanner_token.
  destruct ((0 <? length (sc_buf s)) || isSome (sc_err s)) eqn:Ec.
  - unfold split.
    destruct (isSome (sc_err s) && (length (sc_buf s) =? 0)) eqn:E0.
    + simpl. apply andb_prop in E0. destruct E0 as [E1 E2].
      apply Nat.eqb_eq in E2.
      destruct (sc_buf s) eqn:Eb; [|discriminate]. simpl.
      repeat split; auto.
    + destruct (IndexByte (sc_buf s) nl) as [i|] eqn:Ei.
      * assert (Hi : i < length (sc_buf s)).
        { clear - Ei. revert i Ei.
          induction (sc_buf s) as [|x rest IH]; simpl; intros i H;
            [discriminate|].
          destruct (byte_eqb x nl); [inversion H; lia|].
          destruct (IndexByte rest nl) as [j|]; [|discriminate].
          inversion H; subst. specialize (IH j eq_refl). lia. }
        destruct (length (sc_buf s) <? i + 1) eqn:Ea;
          [apply Nat.ltb_lt in Ea; lia|].
        simpl.
        assert (Hlen : length (firstn (i + 1) (sc_buf s)) = i + 1)
          by (rewrite length_firstn; lia).
        rewrite Hlen. repeat split; auto.
        -- intros Hn. rewrite Hn in Hlen. simpl in Hlen. lia.
        -- symmetry. apply firstn_skipn.
      * destruct (isSome (sc_err s)) eqn:Ee.
        -- rewrite Nat.ltb_irrefl. simpl.
           assert (Hne : sc_buf s <> []).
           { intros Hn. rewrite Hn in E0. discriminate. }
           rewrite skipn_all. rewrite app_nil_r. repeat split; auto.
        -- simpl. rewrite Nat.add_0_r. repeat split; auto.
           intros Hn. destruct (sc_err s); [discriminate | congruence].
  - apply orb_false_elim in Ec. destruct Ec as [E1 E2].
    apply Nat.ltb_ge in E1.
    assert (Hb : sc_buf s = [])
      by (destruct (sc_buf s); [reflexivity | simpl in E1; lia]).
    rewrite Hb. repeat split; auto.
Qed.

Lemma startBufSize_pos : 0 < startBufSize.
Proof. apply Nat.ltb_lt. vm_compute. reflexivity. Qed.

Lemma MaxScanTokenSize_pos : 0 < MaxScanTokenSize.
Proof. apply Nat.ltb_lt. vm_compute. reflexivity. Qed.

Lemma Scanner_shift_spec s :
  sc_buf (Scanner_shift s) = sc_buf s /\ sc_r (Scanner_shift s) = sc_r s
  /\ sc_err (Scanner_shift s) = sc_err s
  /\ sc_tok (Scanner_shift s) = sc_tok s
  /\ sc_buflen (Scanner_shift s) = sc_buflen s
  /\ ((sc_start (Scanner_shift s) = sc_start s
       /\ (0 < sc_start s ->
           sc_start s + length (sc_buf s) <> sc_buflen s))
      \/ (sc_start (Scanner_shift s) = 0 /\ 0 < sc_start s)).
Proof.
  unfold Scanner_shift.
  destruct (Nat.ltb_spec 0 (sc_start s)) as [E1|E1];
    destruct (Nat.eqb_spec (sc_start s + length (sc_buf s)) (sc_buflen s))
      as [E2|E2];
    destruct (sc_buflen s / 2 <? sc_start s) eqn:E3;
    cbn [andb orb sc_buf sc_r sc_err sc_tok sc_buflen sc_start];
    repeat split; auto;
    first [ right; split; [reflexivity | exact E1]
          | left; split; [reflexivity | intros; lia] ].
Qed.

Lemma Scanner_grow_spec s :
  match Scanner_grow s with
  | inl (ok, s') =>
      ok = false /\ sc_err s' = setErr (sc_err s) bufio_ErrTooLong
      /\ sc_buf s' = sc_buf s
      /\ sc_start s + length (sc_buf s) = sc_buflen s
      /\ MaxScanTokenSize <= sc_buflen s
  | inr s' =>
      sc_buf s' = sc_buf s /\ sc_r s' = sc_r s /\ sc_err s' = sc_err s
      /\ sc_tok s' = sc_tok s
      /\ (sc_start s + length (sc_buf s) <= sc_buflen s ->
          sc_start s' + length (sc_buf s') < sc_buflen s')
  end.
Proof.
  pose proof startBufSize_pos as Hs0. pose proof MaxScanTokenSize_pos as Hm0.
  unfold Scanner_grow.
  destruct (sc_start s + length (sc_buf s) =? sc_buflen s) eqn:E3.
  - apply Nat.eqb_eq in E3.
    destruct (MaxScanTokenSize <=? sc_buflen s) eqn:E4.
    + apply Nat.leb_le in E4. cbn [sc_err sc_buf Scanner_setErr].
      repeat split; auto.
    + apply Nat.leb_gt in E4.
      cbn [sc_start sc_buf sc_buflen sc_r sc_err sc_tok].
      repeat split; auto. intros Hwf.
      destruct (sc_buflen s * 2 =? 0) eqn:E5.
      * apply Nat.eqb_eq in E5. lia.
      * apply Nat.eqb_neq in E5. lia.
  - apply Nat.eqb_neq in E3. repeat split; auto. intros Hwf. lia.
Qed.

(** Making room: either the buffer is full at its greatest size, and it
    holds that many bytes from its start, or there is room for at least one
    byte after the bytes held. *)
Lemma Scanner_room s :
  match Scanner_grow (Scanner_shift s) with
  | inl (ok, s') =>
      ok = false /\ sc_err s' = setErr (sc_err s) bufio_ErrTooLong
      /\ sc_buf s' = sc_buf s
      /\ (sc_start s + length (sc_buf s) <= sc_buflen s ->
          MaxScanTokenSize <= length (sc_buf s))
  | inr s' =>
      sc_buf s' = sc_buf s /\ sc_r s' = sc_r s /\ sc_err s' = sc_err s
      /\ sc_tok s' = sc_tok s
      /\ (sc_start s + length (sc_buf s) <= sc_buflen s ->
          sc_start s' + length (sc_buf s') < sc_buflen s')
  end.
Proof.
  pose proof (Scanner_shift_spec s) as (Hb & Hr & He & Ht & Hl & Hst).
  pose proof (Scanner_grow_spec (Scanner_shift s)) as Hg.
  destruct (Scanner_grow (Scanner_shift s)) as [[ok s']|s'].
  - destruct Hg as (-> & He' & Hb' & Hfull & Hmax).
    rewrite He', Hb', He, Hb. repeat split; auto.
    intros Hwf. rewrite Hb, Hl in Hfull. rewrite Hl in Hmax.
    destruct Hst as [[Hs Hn] | [Hs Hp]]; rewrite Hs in Hfull.
    + destruct (sc_start s) as [|n] eqn:E0; [simpl in Hfull; lia|].
      exfalso. apply Hn; [lia | exact Hfull].
    + lia.
  - destruct Hg as (Hb' & Hr' & He' & Ht' & Hroom).
    rewrite Hb', Hr', He', Ht', Hb, Hr, He, Ht. repeat split; auto.
    intros Hwf. rewrite Hb' in Hroom. rewrite Hb, Hl in Hroom.
    apply Hroom.
    destruct Hst as [[Hs _] | [Hs _]]; rewrite Hs; lia.
Qed.

(** Bytes the scanner can still turn into tokens; their number bounds the
    loop of [Read]. *)
Definition avail (s : Scanner) : bytes :=
  sc_buf s ++ match sc_err s with
              | None => script_bytes (sc_r s)
              | Some _ => []
              end.

(** The error a scanner that meets no trouble of its own ends on: the one
    it holds, or the one its source ends on. *)
Definition source_err (s : Scanner) : error :=
  match sc_err s with
  | Some e => e
  | None => script_err (sc_r s)
  end.

Lemma Scanner_fill_spec s :
  sc_err s = None ->
  let s' := Scanner_fill s in
  sc_start s' = sc_start s /\ sc_buflen s' = sc_buflen s
  /\ length (sc_buf s') - length (sc_buf s)
     <= sc_buflen s - (sc_start s + length (sc_buf s))
  /\ (exists got, sc_buf s' = sc_buf s ++ got)
  /\ match sc_err s' with
     | None => script_size (sc_r s') < script_size (sc_r s)
               /\ avail s' = avail s /\ source_err s' = source_err s
     | Some e =>
         (avail s' = avail s /\ source_err s' = source_err s)
         \/ (e = io_ErrNoProgress /\ sc_buf s' = sc_buf s)
     end.
Proof.
  intros He. unfold Scanner_fill, avail, source_err.
  destruct (read_loop _ _ _) as [[got e] rd'] eqn:Er.
  destruct (read_loop_spec _ _ _ _ _ _ Er) as [Hl Hm].
  cbn [sc_start sc_buflen sc_buf sc_err sc_r]. rewrite He.
  split; [reflexivity | split; [reflexivity | split; [|split]]].
  - rewrite length_app. lia.
  - exists got. reflexivity.
  - destruct e as [e'|]; cbn [setErr].
    + destruct Hm as [[Hb Hr] | [Hr Hg]].
      * left. rewrite Hb, Hr, app_nil_r. auto.
      * right. subst. rewrite app_nil_r. auto.
    + destruct Hm as (_ & Hb & Hr & Hs).
      rewrite Hb, Hr, app_assoc. auto.
Qed.

Lemma Scan_iter_fuel s s' : Scan_iter s = inr s' -> scan_fuel s' < scan_fuel s.
Proof.
  unfold Scan_iter. pose proof (Scanner_token_spec s) as Ht.
  destruct (Scanner_token s) as [r|s1]; [discriminate|].
  destruct Ht as (_ & _ & Hr1 & He1 & _).
  destruct (isSome (sc_err s1)) eqn:Ee; [discriminate|].
  assert (H1 : sc_err s1 = None)
    by (destruct (sc_err s1); [discriminate | reflexivity]).
  pose proof (Scanner_room s1) as Hg.
  destruct (Scanner_grow (Scanner_shift s1)) as [r|s2]; [discriminate|].
  destruct Hg as (_ & Hr2 & He2 & _).
  intros H; inversion H; subst s'.
  assert (H2 : sc_err s2 = None) by congruence.
  pose proof (Scanner_fill_spec s2 H2) as Hf. cbv zeta in Hf.
  destruct Hf as (_ & _ & _ & _ & Hf).
  unfold scan_fuel. rewrite <- He1, H1.
  destruct (sc_err (Scanner_fill s2)); [lia|].
  destruct Hf as [Hf _]. rewrite Hr2, Hr1 in Hf. lia.
Qed.

Equations Scan (s : Scanner) : bool * Scanner by wf (scan_fuel s) lt :=
  Scan s with inspect (Scan_iter s) := {
    | exist _ (inl r) _ => r
    | exist _ (inr s') H => Scan s' }.
Next Obligation. apply Scan_iter_fuel. assumption. Qed.

Definition Scanner_Bytes (s : Scanner) : bytes := sc_tok s.

(** [Err] hides [io.EOF]. *)
Definition Scanner_Err (s : Scanner) : option error :=
  match sc_err s with
  | Some io_EOF => None
  | e => e
  end.

(** ** The scanner hands the input over token by token

    These lemmas hold of every scanner, whatever its source; they bound
    the loop of [Read]. *)

Lemma IndexByte_lt data c i : IndexByte data c = Some i -> i < length data.
Proof.
  revert i; induction data as [|x rest IH]; simpl; intros i H; [discriminate|].
  destruct (byte_eqb x c).
  - inversion H; lia.
  - destruct (IndexByte rest c) as [j|]; [|discriminate].
    inversion H; subst. specialize (IH j eq_refl). lia.
Qed.

Lemma IndexByte_found data c i :
  IndexByte data c = Some i ->
  firstn (i + 1) data = firstn i data ++ [c] /\ ~ In c (firstn i data).
Proof.
  revert i. induction data as [|x rest IH]; simpl; intros i H; [discriminate|].
  destruct (byte_eqb x c) eqn:Ex.
  - inversion H; subst. apply Ascii.eqb_eq in Ex. subst x. simpl. auto.
  - destruct (IndexByte rest c) as [j|]; [|discriminate].
    inversion H; subst. destruct (IH j eq_refl) as [Hf Hn].
    apply Ascii.eqb_neq in Ex. simpl. rewrite Hf. split; [reflexivity|].
    intros [Hx|Hin]; [congruence | exact (Hn Hin)].
Qed.

Lemma IndexByte_absent data c : IndexByte data c = None <-> ~ In c data.
Proof.
  induction data as [|x rest IH]; simpl.
  - split; [intros _ [] | reflexivity].
  - destruct (byte_eqb x c) eqn:Ex.
    + apply Ascii.eqb_eq in Ex. subst x.
      split; [discriminate | intros H; exfalso; apply H; auto].
    + apply Ascii.eqb_neq in Ex.
      destruct (IndexByte rest c) as [j|].
      * split; [discriminate|]. intros H. exfalso.
        destruct IH as [_ IH].
        assert (Hn : ~ In c rest) by (intros Hin; apply H; auto).
        specialize (IH Hn). discriminate.
      * split; [|reflexivity]. intros _ [Hx|Hin]; [congruence|].
        destruct IH as [IH _]. exact (IH eq_refl Hin).
Qed.

Lemma split_token data atEOF a t e :
  split data atEOF = (a, Some t, e) ->
  e = None /\ t = firstn a data /\ 0 < a <= length data.
Proof.
  unfold split.
  destruct (atEOF && (length data =? 0)) eqn:E0; [discriminate|].
  destruct (IndexByte data nl) as [i|] eqn:Ei.
  - intros H; inversion H; subst. apply IndexByte_lt in Ei.
    repeat split; lia.
  - destruct atEOF; [|discriminate].
    intros H; inversion H; subst. simpl in E0.
    apply Nat.eqb_neq in E0.
    rewrite firstn_all. repeat split; lia.
Qed.

Lemma split_no_token data atEOF a e :
  split data atEOF = (a, None, e) ->
  a = 0 /\ e = None /\ (atEOF = true -> data = []).
Proof.
  unfold split.
  destruct (atEOF && (length data =? 0)) eqn:E0.
  - intros H; inversion H; subst. repeat split.
    intros ->. simpl in E0. apply Nat.eqb_eq in E0.
    destruct data; [reflexivity | discriminate].
  - destruct (IndexByte data nl) as [i|]; [discriminate|].
    destruct atEOF; [discriminate|].
    intros H; inversion H; subst. repeat split. discriminate.
Qed.

(** A turn of the loop that goes on has read from the source, and has left
    the bytes to come as they were or, when the source made no progress,
    has given up the bytes it had not yet read. *)
Lemma Scan_iter_continue s s' :
  Scan_iter s = inr s' ->
  sc_err s = None /\ exists lost, avail s = avail s' ++ lost.
Proof.
  unfold Scan_iter. pose proof (Scanner_token_spec s) as Ht.
  destruct (Scanner_token s) as [r|s1]; [discriminate|].
  destruct Ht as (Hb1 & _ & Hr1 & He1 & _).
  destruct (isSome (sc_err s1)) eqn:Ee; [discriminate|].
  assert (H1 : sc_err s1 = None)
    by (destruct (sc_err s1); [discriminate | reflexivity]).
  pose proof (Scanner_room s1) as Hg.
  destruct (Scanner_grow (Scanner_shift s1)) as [r|s2]; [discriminate|].
  destruct Hg as (Hb2 & Hr2 & He2 & _).
  intros H; inversion H; subst s'.
  assert (H2 : sc_err s2 = None) by congruence.
  split; [congruence|].
  pose proof (Scanner_fill_spec s2 H2) as Hf. cbv zeta in Hf.
  destruct Hf as (_ & _ & _ & _ & Hf).
  assert (Ha : avail s2 = avail s).
  { unfold avail. rewrite Hb2, Hr2, He2, Hb1, Hr1, He1. reflexivity. }
  destruct (sc_err (Scanner_fill s2)) as [e|] eqn:Ef.
  - destruct Hf as [[Hf _] | [_ Hf]].
    + exists []. rewrite app_nil_r. congruence.
    + exists (script_bytes (sc_r s)). unfold avail at 2. rewrite Ef, Hf.
      rewrite app_nil_r. unfold avail. rewrite <- He1, H1, Hb2, Hb1.
      reflexivity.
  - destruct Hf as (_ & Hf & _). exists []. rewrite app_nil_r. congruence.
Qed.

Lemma Scan_iter_token s s' :
  Scan_iter s = inl (true, s') ->
  sc_tok s' <> [] /\ avail s = sc_tok s' ++ avail s'
  /\ sc_err s' = sc_err s /\ sc_r s' = sc_r s
  /\ sc_start s' + length (sc_buf s') = sc_start s + length (sc_buf s)
  /\ sc_buflen s' = sc_buflen s
  /\ split (sc_buf s) (isSome (sc_err s))
     = (length (sc_tok s'), Some (sc_tok s'), None).
Proof.
  unfold Scan_iter. pose proof (Scanner_token_spec s) as Ht.
  destruct (Scanner_token s) as [[[|] s1]|s1].
  - intros H; inversion H; subst s1.
    destruct Ht as (Hne & Hb & Hst & Hr & He & Hl & Hsp).
    split; [exact Hne | split; [|split; [exact He | split; [exact Hr|]]]].
    + unfold avail. rewrite Hb, He, Hr, app_assoc. reflexivity.
    + split; [|split; [exact Hl | exact Hsp]].
      rewrite Hst, Hb, length_app. lia.
  - destruct Ht.
  - destruct (isSome (sc_err s1)); [discriminate|].
    pose proof (Scanner_room s1) as Hg.
    destruct (Scanner_grow (Scanner_shift s1)) as [[ok s2]|s2];
      [|discriminate].
    destruct Hg as (-> & _). discriminate.
Qed.

(** [Scan] returns false at the end of the input, with an empty buffer, or
    on a buffer that is full at its greatest size and holds no newline. *)
Lemma Scan_iter_stop s s' :
  Scan_iter s = inl (false, s') ->
  (sc_err s <> None /\ sc_buf s = [] /\ sc_buf s' = []
   /\ sc_err s' = sc_err s)
  \/ (sc_err s = None /\ sc_err s' = Some bufio_ErrTooLong
      /\ IndexByte (sc_buf s) nl = None
      /\ (sc_start s + length (sc_buf s) <= sc_buflen s ->
          MaxScanTokenSize <= length (sc_buf s))).
Proof.
  unfold Scan_iter. pose proof (Scanner_token_spec s) as Ht.
  destruct (Scanner_token s) as [[[|] s1]|s1].
  - discriminate.
  - destruct Ht.
  - destruct Ht as (Hb1 & Hst1 & Hr1 & He1 & Hl1 & Hnl & Hdrain).
    destruct (isSome (sc_err s1)) eqn:Ee.
    + intros H; inversion H; subst s'. cbn [sc_buf sc_err]. left.
      assert (Hne : sc_err s <> None).
      { rewrite <- He1. destruct (sc_err s1); [discriminate|discriminate]. }
      auto.
    + assert (H1 : sc_err s1 = None)
        by (destruct (sc_err s1); [discriminate | reflexivity]).
      pose proof (Scanner_room s1) as Hg.
      destruct (Scanner_grow (Scanner_shift s1)) as [[ok s2]|s2];
        [|discriminate].
      destruct Hg as (-> & He2 & Hb2 & Hfull).
      intros H; inversion H; subst s'. right.
      rewrite H1 in He2. cbn [setErr] in He2.
      rewrite Hb1, Hst1, Hl1 in Hfull.
      split; [congruence | split; [exact He2 | split; [exact Hnl|]]].
      exact Hfull.
Qed.

Lemma Scan_step_eq s :
  Scan s = match Scan_iter s with
           | inl r => r
           | inr s' => Scan s'
           end.
Proof.
  funelim (Scan s);
    match goal with E : Scan_iter _ = _ |- _ => rewrite E end; reflexivity.
Qed.

(** Induction along the turns of the loop of [Scan]. *)
Lemma Scan_loop_ind (P : Scanner -> Prop) :
  (forall s, (forall s', Scan_iter s = inr s' -> P s') -> P s) ->
  forall s, P s.
Proof.
  intros step s.
  induction s as [s IH]
    using (well_founded_induction
             (Wf_nat.well_founded_ltof _ scan_fuel)).
  apply step. intros s' Hs'. apply IH. unfold Wf_nat.ltof.
  apply Scan_iter_fuel. exact Hs'.
Qed.

Lemma Scan_true s s' :
  Scan s = (true, s') ->
  sc_tok s' <> [] /\ exists lost, avail s = sc_tok s' ++ avail s' ++ lost.
Proof.
  revert s'. induction s as [s IH] using Scan_loop_ind. intros s'.
  rewrite Scan_step_eq. destruct (Scan_iter s) as [r|s1] eqn:E.
  - intros ->. apply Scan_iter_token in E. destruct E as (Hne & Ha & _).
    split; [exact Hne|]. exists []. rewrite app_nil_r. exact Ha.
  - intros Hs. apply (IH _ eq_refl) in Hs. destruct Hs as (Hne & l1 & Ha).
    apply Scan_iter_continue in E. destruct E as (_ & l2 & E).
    split; [exact Hne|]. exists (l1 ++ l2).
    rewrite E, Ha, <- !app_assoc. reflexivity.
Qed.

Lemma Scan_false s s' :
  Scan s = (false, s') ->
  exists e, sc_err s' = Some e /\ (e = bufio_ErrTooLong \/ sc_buf s' = []).
Proof.
  revert s'. induction s as [s IH] using Scan_loop_ind. intros s'.
  rewrite Scan_step_eq. destruct (Scan_iter s) as [r|s1] eqn:E.
  - intros ->. apply Scan_iter_stop in E.
    destruct E as [(Hne & _ & Hb & He) | (_ & He & _)].
    + destruct (sc_err s) as [e|] eqn:Ee; [|congruence].
      exists e. auto.
    + exists bufio_ErrTooLong. auto.
  - intros Hs. apply (IH _ eq_refl) in Hs. exact Hs.
Qed.

Lemma Scan_shorter s s' :
  Scan s = (true, s') -> length (avail s') < length (avail s).
Proof.
  intros H. apply Scan_true in H. destruct H as (Hne & lost & ->).
  rewrite !length_app. destruct (sc_tok s'); [congruence | simpl; lia].
Qed.

(** ** The records a scanner hands over, and the error it stops on

    [tokens s] are the records the scanner will hand over, in order, by
    calling [Scan] until it returns false; [scan_end s] is the scanner
    that call leaves, and [final_err s] the error it then holds, which
    [Err] reports unless it is [io.EOF]. *)
Equations tokens (s : Scanner) : list bytes by wf (length (avail s)) lt :=
  tokens s with inspect (Scan s) := {
    | exist _ (true, s') H => Scanner_Bytes s' :: tokens s'
    | exist _ (false, _) _ => [] }.
Next Obligation. apply Scan_shorter. assumption. Qed.

Equations scan_end (s : Scanner) : Scanner by wf (length (avail s)) lt :=
  scan_end s with inspect (Scan s) := {
    | exist _ (true, s') H => scan_end s'
    | exist _ (false, s') _ => s' }.
Next Obligation. apply Scan_shorter. assumption. Qed.

Definition final_err (s : Scanner) : error :=
  match sc_err (scan_end s) with
  | Some e => e
  | None => io_EOF
  end.

Lemma tokens_eq s :
  tokens s = match Scan s with
             | (true, s') => Scanner_Bytes s' :: tokens s'
             | (false, _) => []
             end.
Proof.
  funelim (tokens s);
    match goal with E : Scan _ = _ |- _ => rewrite E end; reflexivity.
Qed.

Lemma scan_end_eq s :
  scan_end s = match Scan s with
               | (true, s') => scan_end s'
               | (false, s') => s'
               end.
Proof.
  funelim (scan_end s);
    match goal with E : Scan _ = _ |- _ => rewrite E end; reflexivity.
Qed.

Lemma final_err_true s s' : Scan s = (true, s') -> final_err s' = final_err s.
Proof.
  intros H. unfold final_err. rewrite (scan_end_eq s), H. reflexivity.
Qed.

Lemma final_err_false s s' :
  Scan s = (false, s') -> sc_err s' = Some (final_err s).
Proof.
  intros H. unfold final_err. rewrite (scan_end_eq s), H.
  apply Scan_false in H. destruct H as (e & -> & _). reflexivity.
Qed.

(** Induction along the records a scanner still has to give. *)
Lemma Scanner_records_ind (P : Scanner -> Prop) :
  (forall s, (forall s', Scan s = (true, s') -> P s') -> P s) ->
  forall s, P s.
Proof.
  intros step s.
  induction s as [s IH]
    using (well_founded_induction
             (Wf_nat.well_founded_ltof _ (fun x => length (avail x)))).
  apply step. intros s' Hs'. apply IH. unfold Wf_nat.ltof.
  apply Scan_shorter. exact Hs'.
Qed.

(** A scanner that has stopped at the end of its input has nothing more
    to give. *)
Lemma Scan_drained s :
  sc_buf s = [] -> sc_err s <> None ->
  exists s', Scan s = (false, s') /\ sc_err s' = sc_err s.
Proof.
  intros Hb He. rewrite Scan_step_eq.
  pose proof (Scanner_token_spec s) as Ht. unfold Scan_iter.
  destruct (Scanner_token s) as [[[|] s1]|s1].
  - destruct Ht as (Hne & Hbt & _). rewrite Hb in Hbt.
    destruct (sc_tok s1); [congruence | discriminate].
  - destruct Ht.
  - destruct Ht as (_ & _ & _ & He1 & _).
    destruct (sc_err s1) eqn:E1; [|congruence]. simpl.
    eexists. split; [reflexivity|]. simpl. congruence.
Qed.

Lemma Scan_false_tokens s s' :
  Scan s = (false, s') -> final_err s <> bufio_ErrTooLong -> tokens s' = [].
Proof.
  intros H Hne. pose proof (final_err_false _ _ H) as Hf.
  apply Scan_false in H. destruct H as (e & He & [-> | Hb]).
  - congruence.
  - destruct (Scan_drained s' Hb) as (s'' & Hs & _); [congruence|].
    rewrite tokens_eq, Hs. reflexivity.
Qed.

(** ** The record boundary rule

    [records data] cuts [data] right after each newline; bytes after the
    last newline, if any, make a last record without one. *)
Fixpoint records (data : bytes) : list bytes :=
  match data with
  | [] => []
  | c :: rest =>
      if byte_eqb c nl then [c] :: records rest
      else match records rest with
           | [] => [[c]]
           | l :: ls => (c :: l) :: ls
           end
  end.

(** ** Sources and records a scanner copes with

    [stalls rd] counts the calls at the head of the script that return no
    bytes and no error; a source is [steady] when, up to its first error,
    it never makes more than [maxConsecutiveEmptyReads] such calls in a
    row.  A record is [short] when the buffer of the scanner can hold it:
    at most [MaxScanTokenSize] bytes with its newline, fewer without. *)
Fixpoint stalls (rd : Reader) : nat :=
  match rd with
  | ([], None) :: rd' => S (stalls rd')
  | _ => 0
  end.

Fixpoint steady (rd : Reader) : bool :=
  match rd with
  | [] => true
  | (_, Some _) :: _ => true
  | (c, None) :: rd' =>
      (stalls ((c, None) :: rd') <=? maxConsecutiveEmptyReads) && steady rd'
  end.

Definition short (t : bytes) : bool :=
  (length t <? MaxScanTokenSize)
  || ((length t =? MaxScanTokenSize) && existsb (fun x => byte_eqb x nl) t).

(** The state of a scanner that will hand over the records of its input
    and stop on the error of its source: its indices are within its
    buffer, its source is steady and the records to come are short. *)
Definition good (s : Scanner) : Prop :=
  sc_start s + length (sc_buf s) <= sc_buflen s
  /\ (sc_err s = None -> steady (sc_r s) = true)
  /\ forallb short (records (avail s)) = true.

Lemma steady_stalls rd :
  steady rd = true -> stalls rd <= maxConsecutiveEmptyReads.
Proof.
  destruct rd as [|[c [e|]] rd']; simpl; intros H; try lia.
  - destruct c; lia.
  - apply andb_prop in H. destruct H as [H _].
    apply Nat.leb_le in H. exact H.
Qed.

Lemma read_loop_steady left : forall rd space got e rd',
  0 < space -> stalls rd <= left -> steady rd = true ->
  read_loop left rd space = (got, e, rd') ->
  match e with
  | None => steady rd' = true
  | Some e' => script_bytes rd = got /\ script_err rd = e'
  end.
Proof.
  induction left as [|left IH]; intros rd space got e rd' Hsp Hst Hsd;
    rewrite read_loop_eq;
    destruct (Reader_Read rd space) as [[g e0] rd0] eqn:ER;
    destruct (Reader_Read_spec _ _ _ _ _ ER) as (Hl & _ & _ & Hm);
    (destruct (space <? length g) eqn:Eb;
       [apply Nat.ltb_lt in Eb; lia|]);
    (destruct e0 as [e1|];
       [intros H; inversion H; subst; exact Hm|]);
    assert (Hrd0 : steady rd0 = true /\ (g = [] -> stalls rd = S (stalls rd0)))
      by (destruct rd as [|[c [ec|]] rd1]; simpl in ER;
          [inversion ER
          |destruct (length c <=? space) eqn:El; inversion ER; subst;
           split; [reflexivity|];
           apply Nat.leb_gt in El; intros Hg;
           apply (f_equal (@length byte)) in Hg;
           rewrite length_firstn in Hg; simpl in Hg; lia
          |destruct (length c <=? space) eqn:El; inversion ER; subst;
           simpl in Hsd; apply andb_prop in Hsd; destruct Hsd as [_ Hsd];
           [split; [exact Hsd | intros ->; reflexivity]|];
           apply Nat.leb_gt in El; split;
           [simpl; rewrite Hsd;
            destruct (skipn space c) eqn:Esk;
            [apply (f_equal (@length byte)) in Esk;
             rewrite length_skipn in Esk; simpl in Esk; lia
            |reflexivity]
           |intros Hg; apply (f_equal (@length byte)) in Hg;
            rewrite length_firstn in Hg; simpl in Hg; lia]]);
    destruct Hrd0 as [Hsd0 Hst0];
    (destruct (0 <? length g) eqn:E0;
       [intros H; inversion H; subst; exact Hsd0|]);
    apply Nat.ltb_ge in E0;
    assert (g = []) by (destruct g; [reflexivity | simpl in E0; lia]);
    subst g; specialize (Hst0 eq_refl).
  - lia.
  - intros H. destruct Hm as [Hb He]. simpl in Hb.
    assert (Hst' : stalls rd0 <= left) by lia.
    pose proof (IH _ _ _ _ _ Hsp Hst' Hsd0 H) as Hr.
    destruct e; [|exact Hr]. rewrite Hb, He in *. exact Hr.
Qed.

Lemma Scanner_fill_good s :
  sc_err s = None -> steady (sc_r s) = true ->
  sc_start s + length (sc_buf s) < sc_buflen s ->
  sc_start (Scanner_fill s) + length (sc_buf (Scanner_fill s))
  <= sc_buflen (Scanner_fill s)
  /\ (sc_err (Scanner_fill s) = None -> steady (sc_r (Scanner_fill s)) = true)
  /\ avail (Scanner_fill s) = avail s
  /\ source_err (Scanner_fill s) = source_err s.
Proof.
  intros He Hsd Hroom. unfold Scanner_fill, avail, source_err.
  destruct (read_loop _ _ _) as [[got e] rd'] eqn:Er.
  destruct (read_loop_spec _ _ _ _ _ _ Er) as [Hl Hm].
  assert (Hsp : 0 < sc_buflen s - (sc_start s + length (sc_buf s))) by lia.
  pose proof (read_loop_steady _ _ _ _ _ _ Hsp
                (steady_stalls _ Hsd) Hsd Er) as Hs.
  cbn [sc_start sc_buflen sc_buf sc_err sc_r]. rewrite He.
  split; [rewrite length_app; lia|].
  destruct e as [e'|]; cbn [setErr].
  - destruct Hs as [Hb Hr]. rewrite Hb, Hr, app_nil_r.
    split; [discriminate | auto].
  - destruct Hm as (_ & Hb & Hr & _). rewrite Hb, Hr, app_assoc. auto.
Qed.

(** A turn of the loop that goes on, over a steady source: it has read
    bytes, or met the end of the source, and lost none. *)
Lemma Scan_iter_steady_continue s s' :
  sc_start s + length (sc_buf s) <= sc_buflen s ->
  steady (sc_r s) = true ->
  Scan_iter s = inr s' ->
  sc_start s' + length (sc_buf s') <= sc_buflen s'
  /\ (sc_err s' = None -> steady (sc_r s') = true)
  /\ avail s' = avail s /\ source_err s' = source_err s
  /\ sc_start s' <= sc_start s
  /\ sc_buflen s' <= Nat.max (sc_buflen s) MaxScanTokenSize.
Proof.
  intros Hwf Hsd. unfold Scan_iter.
  pose proof (Scanner_token_spec s) as Ht.
  destruct (Scanner_token s) as [r|s1]; [discriminate|].
  destruct Ht as (Hb1 & Hst1 & Hr1 & He1 & Hl1 & _).
  destruct (isSome (sc_err s1)) eqn:Ee; [discriminate|].
  assert (H1 : sc_err s1 = None)
    by (destruct (sc_err s1); [discriminate | reflexivity]).
  pose proof (Scanner_room s1) as Hg.
  pose proof (Scanner_shift_spec s1) as (_ & _ & _ & _ & Hl2 & Hst2).
  pose proof (Scanner_grow_spec (Scanner_shift s1)) as Hgr.
  assert (Hsz : match Scanner_grow (Scanner_shift s1) with
                | inl _ => True
                | inr s2 => sc_start s2 <= sc_start s
                            /\ sc_buflen s2
                               <= Nat.max (sc_buflen s) MaxScanTokenSize
                end).
  { unfold Scanner_grow.
    destruct (sc_start (Scanner_shift s1)
              + length (sc_buf (Scanner_shift s1))
              =? sc_buflen (Scanner_shift s1)).
    - destruct (MaxScanTokenSize <=? sc_buflen (Scanner_shift s1));
        [exact I|].
      cbn [sc_start sc_buflen]. split; lia.
    - rewrite Hl2, Hl1. split; [|lia].
      destruct Hst2 as [[-> _] | [-> _]]; lia. }
  destruct (Scanner_grow (Scanner_shift s1)) as [r|s2]; [discriminate|].
  destruct Hg as (Hb2 & Hr2 & He2 & _ & Hroom).
  destruct Hsz as [Hst3 Hl3].
  intros H; inversion H; subst s'.
  assert (H2 : sc_err s2 = None) by congruence.
  assert (Ha : avail s2 = avail s).
  { unfold avail. rewrite Hb2, Hr2, He2, Hb1, Hr1, He1. reflexivity. }
  assert (Hse : source_err s2 = source_err s).
  { unfold source_err. rewrite Hr2, He2, Hr1, He1. reflexivity. }
  destruct (Scanner_fill_good s2 H2) as (Hwf' & Hsd' & Ha' & Hse').
  - rewrite Hr2, Hr1. exact Hsd.
  - apply Hroom. rewrite Hb1, Hst1, Hl1. exact Hwf.
  - pose proof (Scanner_fill_spec s2 H2) as Hf. cbv zeta in Hf.
    destruct Hf as (Hfs & Hfl & _).
    rewrite Hfs, Hfl.
    split; [rewrite <- Hfs, <- Hfl; exact Hwf'|].
    split; [exact Hsd' | split; [congruence | split; [congruence|]]].
    split; [exact Hst3 | exact Hl3].
Qed.

Lemma Scan_iter_good_continue s s' :
  good s -> Scan_iter s = inr s' ->
  good s' /\ avail s' = avail s /\ source_err s' = source_err s.
Proof.
  intros (Hwf & Hsd & Hsh) H.
  destruct (Scan_iter_continue _ _ H) as [He _].
  destruct (Scan_iter_steady_continue s s' Hwf (Hsd He) H)
    as (Hwf' & Hsd' & Ha & Hse & _).
  split; [|split; assumption].
  split; [exact Hwf' | split; [exact Hsd'|]]. rewrite Ha. exact Hsh.
Qed.

Lemma IndexByte_app b r c i :
  IndexByte b c = Some i -> IndexByte (b ++ r) c = Some i.
Proof.
  revert i. induction b as [|x b IH]; simpl; intros i H; [discriminate|].
  destruct (byte_eqb x c); [exact H|].
  destruct (IndexByte b c) as [j|]; [|discriminate].
  rewrite (IH j eq_refl). exact H.
Qed.

Lemma split_extend b rest atEOF n t :
  split b atEOF = (n, Some t, None) ->
  (atEOF = true -> rest = []) ->
  split (b ++ rest) true = (n, Some t, None).
Proof.
  intros Hs Hrest. destruct atEOF.
  - rewrite (Hrest eq_refl), app_nil_r. exact Hs.
  - unfold split in *. simpl andb in *.
    destruct (IndexByte b nl) as [i|] eqn:Ei; [|discriminate].
    inversion Hs; subst. pose proof (IndexByte_lt _ _ _ Ei) as Hlt.
    rewrite (IndexByte_app _ rest _ _ Ei).
    destruct (length (b ++ rest) =? 0) eqn:E0.
    + apply Nat.eqb_eq in E0. rewrite length_app in E0. lia.
    + rewrite firstn_app. replace (i + 1 - length b) with 0 by lia.
      simpl firstn at 2. rewrite app_nil_r. reflexivity.
Qed.

Lemma split_records data a t :
  split data true = (a, Some t, None) ->
  records data = t :: records (skipn a data).
Proof.
  revert a t. induction data as [|c rest IH]; intros a t.
  - unfold split; simpl. discriminate.
  - unfold split. simpl andb. cbn [IndexByte records].
    destruct (byte_eqb c nl) eqn:Ec.
    + intros H; inversion H; subst. reflexivity.
    + destruct (IndexByte rest nl) as [i|] eqn:Ei.
      * intros H; inversion H; subst.
        assert (Hr : split rest true
                     = (i + 1, Some (firstn (i + 1) rest), None)).
        { unfold split. rewrite Ei.
          apply IndexByte_lt in Ei.
          destruct rest; [simpl in Ei; lia | reflexivity]. }
        rewrite (IH _ _ Hr). reflexivity.
      * intros H; inversion H; subst.
        cbn [length skipn]. rewrite skipn_all.
        destruct rest as [|d rest']; [reflexivity|].
        assert (Hr : split (d :: rest') true
                     = (length (d :: rest'), Some (d :: rest'), None)).
        { unfold split. rewrite Ei. reflexivity. }
        rewrite (IH _ _ Hr), skipn_all. reflexivity.
Qed.

Lemma Scan_iter_good_token s s' :
  good s -> Scan_iter s = inl (true, s') ->
  good s' /\ source_err s' = source_err s
  /\ records (avail s) = sc_tok s' :: records (avail s').
Proof.
  intros (Hwf & Hsd & Hsh) H. apply Scan_iter_token in H.
  destruct H as (Hne & Ha & He & Hr & Hst & Hl & Hsp).
  assert (Hrec : records (avail s) = sc_tok s' :: records (avail s')).
  { assert (Hx : split (avail s) true
                 = (length (sc_tok s'), Some (sc_tok s'), None)).
    { unfold avail. eapply split_extend; [exact Hsp|].
      destruct (sc_err s); [reflexivity | discriminate]. }
    rewrite (split_records _ _ _ Hx), Ha, skipn_app, skipn_all, Nat.sub_diag.
    reflexivity. }
  split; [|split; [|exact Hrec]].
  - split; [lia | split; [rewrite He, Hr; exact Hsd|]].
    rewrite Hrec in Hsh. simpl in Hsh. apply andb_prop in Hsh. tauto.
  - unfold source_err. rewrite He, Hr. reflexivity.
Qed.

(** The first record of an input that begins with bytes other than the
    newline begins with these bytes. *)
Lemma records_no_nl rest : forall data,
  IndexByte data nl = None -> data <> [] ->
  exists more ts, records (data ++ rest) = (data ++ more) :: ts.
Proof.
  induction data as [|c d IH]; intros Hn Hne; [congruence|].
  simpl in Hn. destruct (byte_eqb c nl) eqn:Ec; [discriminate|].
  destruct (IndexByte d nl) eqn:Ed; [discriminate|].
  cbn [List.app records]. rewrite Ec.
  destruct d as [|c' d'].
  - simpl. destruct (records rest) as [|l ls].
    + exists [], []. reflexivity.
    + exists l, ls. reflexivity.
  - destruct (IH eq_refl) as (more & ts & Hr); [discriminate|].
    rewrite Hr. exists more, ts. reflexivity.
Qed.

Lemma short_no_nl data more :
  IndexByte data nl = None -> MaxScanTokenSize <= length data ->
  short (data ++ more) = false.
Proof.
  intros Hn Hlen. unfold short. rewrite length_app.
  destruct (Nat.ltb_spec (length data + length more) MaxScanTokenSize);
    [lia|].
  destruct (Nat.eqb_spec (length data + length more) MaxScanTokenSize);
    [|reflexivity].
  assert (more = []) by (destruct more; [reflexivity | simpl in *; lia]).
  subst more. rewrite app_nil_r. simpl.
  clear - Hn. induction data as [|x d IH]; [reflexivity|].
  simpl in *. destruct (byte_eqb x nl); [discriminate|].
  destruct (IndexByte d nl); [discriminate|]. apply IH. reflexivity.
Qed.

Lemma Scan_iter_good_stop s s' :
  good s -> Scan_iter s = inl (false, s') ->
  avail s = [] /\ sc_buf s' = [] /\ sc_err s' = Some (source_err s).
Proof.
  intros (Hwf & Hsd & Hsh) H. apply Scan_iter_stop in H.
  destruct H as [(Hne & Hb & Hb' & He) | (He & _ & Hnl & Hfull)].
  - unfold avail, source_err. rewrite Hb, He.
    destruct (sc_err s); [auto | congruence].
  - exfalso. specialize (Hfull Hwf).
    pose proof MaxScanTokenSize_pos as Hm0.
    assert (Hne : sc_buf s <> []).
    { intros Hn. rewrite Hn in Hfull. simpl in Hfull. lia. }
    unfold avail in Hsh. rewrite He in Hsh.
    destruct (records_no_nl (script_bytes (sc_r s)) _ Hnl Hne)
      as (more & ts & Hr).
    rewrite Hr in Hsh. simpl in Hsh.
    rewrite (short_no_nl _ more Hnl Hfull) in Hsh. discriminate.
Qed.

Lemma Scan_good_true s s' :
  good s -> Scan s = (true, s') ->
  good s' /\ source_err s' = source_err s
  /\ records (avail s) = sc_tok s' :: records (avail s').
Proof.
  revert s'. induction s as [s IH] using Scan_loop_ind. intros s' Hg.
  rewrite Scan_step_eq. destruct (Scan_iter s) as [r|s1] eqn:E.
  - intros ->. apply Scan_iter_good_token; assumption.
  - intros Hs.
    destruct (Scan_iter_good_continue _ _ Hg E) as (Hg1 & Ha & He).
    destruct (IH _ eq_refl _ Hg1 Hs) as (Hg' & He' & Hr).
    rewrite <- Ha, <- He. auto.
Qed.

Lemma Scan_good_false s s' :
  good s -> Scan s = (false, s') ->
  avail s = [] /\ sc_err s' = Some (source_err s).
Proof.
  revert s'. induction s as [s IH] using Scan_loop_ind. intros s' Hg.
  rewrite Scan_step_eq. destruct (Scan_iter s) as [r|s1] eqn:E.
  - intros ->. apply (Scan_iter_good_stop _ _ Hg) in E. tauto.
  - intros Hs.
    destruct (Scan_iter_good_continue _ _ Hg E) as (Hg1 & Ha & He).
    destruct (IH _ eq_refl _ Hg1 Hs) as (Ha' & He').
    rewrite <- Ha, <- He. auto.
Qed.

(** A good scanner follows the record boundary rule and stops on the
    error of its source. *)
Lemma tokens_good s :
  good s -> tokens s = records (avail s) /\ final_err s = source_err s.
Proof.
  induction s as [s IH] using Scanner_records_ind. intros Hg.
  rewrite tokens_eq. destruct (Scan s) as [[|] s'] eqn:Es.
  - destruct (Scan_good_true _ _ Hg Es) as (Hg' & He & Hr).
    destruct (IH _ eq_refl Hg') as [Ht Hf].
    rewrite <- (final_err_true _ _ Es), Hf, He, Hr, Ht. auto.
  - destruct (Scan_good_false _ _ Hg Es) as (Ha & He).
    pose proof (final_err_false _ _ Es) as Hf.
    rewrite Ha. split; [reflexivity | congruence].
Qed.

Lemma good_NewScanner rd :
  steady rd = true -> forallb short (records (script_bytes rd)) = true ->
  good (NewScanner rd).
Proof. intros Hs Hr. repeat split; auto. Qed.

Lemma tokens_records rd :
  steady rd = true -> forallb short (records (script_bytes rd)) = true ->
  tokens (NewScanner rd) = records (script_bytes rd)
  /\ final_err (NewScanner rd) = script_err rd.
Proof. intros Hs Hr. apply (tokens_good _ (good_NewScanner rd Hs Hr)). Qed.

Lemma records_concat data : concat (records data) = data.
Proof.
  induction data as [|c rest IH]; [reflexivity|]. cbn [records].
  destruct (byte_eqb c nl).
  - cbn [concat List.app]. rewrite IH. reflexivity.
  - destruct (records rest) as [|l ls]; simpl in *; rewrite <- IH; reflexivity.
Qed.

(** The shape of a record: bytes other than the newline, then the newline
    or, for the last record of an input that does not end in one, nothing;
    never empty. *)
Lemma records_shape data :
  Forall (fun t => t <> [] /\ exists body,
                     (t = body ++ [nl] \/ t = body) /\ ~ In nl body)
         (records data).
Proof.
  induction data as [|c rest IH]; cbn [records]; [constructor|].
  destruct (byte_eqb c nl) eqn:Ec.
  - apply Ascii.eqb_eq in Ec. subst c. constructor; [|exact IH].
    split; [discriminate|]. exists []. simpl. auto.
  - apply Ascii.eqb_neq in Ec.
    destruct (records rest) as [|l ls].
    + constructor; [|constructor]. split; [discriminate|].
      exists [c]. split; [auto|]. simpl. intros [H|[]]. congruence.
    + inversion IH as [|? ? [_ (body & Hb & Hnl)] Hls]; subst.
      constructor; [|exact Hls]. split; [discriminate|].
      exists (c :: body). split.
      * destruct Hb as [-> | ->]; auto.
      * simpl. intros [H|H]; [congruence | exact (Hnl H)].
Qed.

(** Records of an input shorter than the greatest token are short. *)
Lemma records_short data :
  length data < MaxScanTokenSize -> forallb short (records data) = true.
Proof.
  intros Hlen. apply forallb_forall. intros t Hin.
  assert (Hle : length t <= length data).
  { rewrite <- (records_concat data).
    clear - Hin. induction (records data) as [|r rs IH]; [destruct Hin|].
    simpl. rewrite length_app. destruct Hin as [->|Hin]; [lia|].
    specialize (IH Hin). lia. }
  unfold short. destruct (Nat.ltb_spec (length t) MaxScanTokenSize);
    [reflexivity | lia].
Qed.

(** ** Where the error of a scanner comes from *)

(** The errors the entries of a script hold. *)
Definition script_errs (rd : Reader) : list error :=
  flat_map (fun x => match snd x with
                     | Some e => [e]
                     | None => []
                     end) rd.

(** An error [e] that a scanner in state [s] may stop on: end-of-data, the
    error it holds, an error of its source, or one of the two that [Scan]
    sets by itself. *)
Definition explained (s : Scanner) (e : error) : Prop :=
  e = io_EOF \/ sc_err s = Some e \/ In e (script_errs (sc_r s))
  \/ e = bufio_ErrTooLong \/ e = io_ErrNoProgress.

Lemma Reader_Read_errs rd n got e rd' :
  Reader_Read rd n = ((got, e), rd') ->
  incl (script_errs rd') (script_errs rd)
  /\ (forall e', e = Some e' -> e' = io_EOF \/ In e' (script_errs rd)).
Proof.
  destruct rd as [|[c e0] rd0]; simpl.
  - intros H; inversion H; subst. split; [apply incl_refl|].
    intros e' He; inversion He. auto.
  - destruct (length c <=? n).
    + intros H; inversion H; subst. unfold script_errs. simpl.
      split; [apply incl_appr, incl_refl|].
      intros e' ->. right. simpl. auto.
    + intros H; inversion H; subst. split; [apply incl_refl | discriminate].
Qed.

Lemma read_loop_errs left : forall rd space got e rd',
  read_loop left rd space = (got, e, rd') ->
  incl (script_errs rd') (script_errs rd)
  /\ (forall e', e = Some e' ->
      e' = io_EOF \/ In e' (script_errs rd) \/ e' = io_ErrNoProgress).
Proof.
  induction left as [|left IH]; intros rd space got e rd';
    rewrite read_loop_eq;
    destruct (Reader_Read rd space) as [[g e0] rd0] eqn:ER;
    destruct (Reader_Read_spec _ _ _ _ _ ER) as (Hl & _);
    destruct (Reader_Read_errs _ _ _ _ _ ER) as (Hi & He0);
    (destruct (space <? length g) eqn:Eb;
       [apply Nat.ltb_lt in Eb; lia|]);
    (destruct e0 as [e1|];
       [intros H; inversion H; subst; split; [exact Hi|];
        intros e' He'; inversion He'; subst;
        destruct (He0 _ eq_refl); auto|]);
    (destruct (0 <? length g);
       [intros H; inversion H; subst; split; [exact Hi | discriminate]|]).
  - intros H; inversion H; subst. split; [exact Hi|].
    intros e' He'; inversion He'. auto.
  - intros H. destruct (IH _ _ _ _ _ H) as [Hi' He'].
    split; [eapply incl_tran; eassumption|].
    intros e' Hx. destruct (He' _ Hx) as [?|[?|?]]; auto.
Qed.

Lemma Scan_iter_explained s :
  match Scan_iter s with
  | inl (true, s') => forall e, explained s' e -> explained s e
  | inl (false, s') => forall e, sc_err s' = Some e -> explained s e
  | inr s' => forall e, explained s' e -> explained s e
  end.
Proof.
  destruct (Scan_iter s) as [[[|] s']|s'] eqn:E.
  - apply Scan_iter_token in E. destruct E as (_ & _ & He & Hr & _).
    unfold explained. rewrite He, Hr. auto.
  - apply Scan_iter_stop in E.
    destruct E as [(_ & _ & _ & He) | (_ & He & _)]; intros e Hx;
      unfold explained.
    + right; left. congruence.
    + rewrite He in Hx. inversion Hx. auto.
  - unfold Scan_iter in E. pose proof (Scanner_token_spec s) as Ht.
    destruct (Scanner_token s) as [r|s1]; [discriminate|].
    destruct Ht as (_ & _ & Hr1 & He1 & _).
    destruct (isSome (sc_err s1)) eqn:Ee; [discriminate|].
    assert (H1 : sc_err s1 = None)
      by (destruct (sc_err s1); [discriminate | reflexivity]).
    pose proof (Scanner_room s1) as Hg.
    destruct (Scanner_grow (Scanner_shift s1)) as [r|s2]; [discriminate|].
    destruct Hg as (_ & Hr2 & He2 & _).
    inversion E; subst s'. unfold Scanner_fill, explained.
    destruct (read_loop _ _ _) as [[got e0] rd'] eqn:Er.
    destruct (read_loop_errs _ _ _ _ _ _ Er) as [Hi Hc].
    cbn [sc_err sc_r]. rewrite He2, H1, Hr2, Hr1 in *.
    intros e [Hx|[Hx|[Hx|Hx]]].
    + left. exact Hx.
    + destruct e0 as [e1|]; [|discriminate]. cbn [setErr] in Hx.
      inversion Hx; subst. destruct (Hc _ eq_refl) as [?|[?|?]]; tauto.
    + right; right; left. apply Hi. exact Hx.
    + tauto.
Qed.

Lemma Scan_explained s :
  match Scan s with
  | (true, s') => forall e, explained s' e -> explained s e
  | (false, s') => forall e, sc_err s' = Some e -> explained s e
  end.
Proof.
  induction s as [s IH] using Scan_loop_ind.
  rewrite Scan_step_eq. pose proof (Scan_iter_explained s) as Hi.
  destruct (Scan_iter s) as [[[|] s1]|s1] eqn:E; try exact Hi.
  specialize (IH _ eq_refl).
  destruct (Scan s1) as [[|] s']; intros e Hx; apply Hi, IH, Hx.
Qed.

(** The error a scanner stops on is end-of-data, the error it held, an
    error of its source, [ErrTooLong] or [io.ErrNoProgress]. *)
Lemma final_err_explained s : explained s (final_err s).
Proof.
  induction s as [s IH] using Scanner_records_ind.
  pose proof (Scan_explained s) as Hs.
  destruct (Scan s) as [[|] s'] eqn:Es.
  - rewrite <- (final_err_true _ _ Es). apply Hs, IH. reflexivity.
  - apply Hs. apply (final_err_false _ _ Es).
Qed.

Lemma script_bytes_strings data :
  script_bytes (strings_NewReader data) = data.
Proof.
  destruct data; simpl; [reflexivity | rewrite app_nil_r; reflexivity].
Qed.

(** ** What the scanner does not cope with *)

(** A source that comes back with nothing more than
    [maxConsecutiveEmptyReads] times in a row, and room to read into: the
    loop that reads gives up. *)
Lemma read_loop_stalled left : forall rd space,
  0 < space -> left < stalls rd ->
  exists rd', read_loop left rd space = ([], Some io_ErrNoProgress, rd').
Proof.
  induction left as [|left IH]; intros rd space Hsp Hst;
    rewrite read_loop_eq;
    (destruct rd as [|[[|x c] [e|]] rd0]; simpl in Hst; try lia);
    simpl.
  - destruct space; [lia|]. simpl. eauto.
  - destruct space; [lia|]. simpl. apply IH; [lia | lia].
Qed.

Lemma Scan_no_progress rd :
  maxConsecutiveEmptyReads < stalls rd ->
  exists s', Scan (NewScanner rd) = (false, s')
             /\ sc_err s' = Some io_ErrNoProgress.
Proof.
  intros Hst. pose proof MaxScanTokenSize_pos as Hm.
  pose proof startBufSize_pos as Hb.
  rewrite Scan_step_eq.
  unfold Scan_iter, Scanner_token, NewScanner.
  cbn [sc_buf sc_err length Nat.ltb Nat.leb isSome orb].
  unfold Scanner_shift. cbn [sc_start Nat.ltb Nat.leb andb].
  unfold Scanner_grow. cbn [sc_start sc_buf sc_buflen length Nat.add Nat.eqb].
  destruct (Nat.leb_spec MaxScanTokenSize 0) as [Hx|_]; [lia|].
  cbn [Nat.mul Nat.eqb]. unfold Scanner_fill.
  cbn [sc_start sc_buf sc_buflen sc_r sc_err sc_tok length Nat.add].
  destruct (read_loop_stalled maxConsecutiveEmptyReads rd
              (Nat.min startBufSize MaxScanTokenSize - 0))
    as [rd' Hr]; [lia | exact Hst|].
  rewrite Hr. cbn [List.app setErr].
  destruct (Scan_drained
              {| sc_r := rd';
                 sc_buflen := Nat.min startBufSize MaxScanTokenSize;
                 sc_start := 0; sc_buf := []; sc_tok := [];
                 sc_err := Some io_ErrNoProgress |})
    as (s' & Hs & He); [reflexivity | discriminate|].
  exists s'. auto.
Qed.

(** A scanner at the start of bytes that hold no newline and are more
    than its buffer takes: it stops with [ErrTooLong]. *)
Lemma Scan_too_long body rest : forall s,
  IndexByte body nl = None -> MaxScanTokenSize <= length body ->
  MaxScanTokenSize < length (body ++ rest) ->
  sc_err s = None -> steady (sc_r s) = true ->
  sc_start s = 0 -> length (sc_buf s) <= sc_buflen s ->
  sc_buflen s <= MaxScanTokenSize ->
  avail s = body ++ rest ->
  exists s', Scan s = (false, s') /\ sc_err s' = Some bufio_ErrTooLong.
Proof.
  intros s Hnl Hlen Hmore.
  induction s as [s IH] using Scan_loop_ind.
  intros He Hsd Hst Hwf Hmax Ha.
  assert (Hbuf : sc_buf s = firstn (length (sc_buf s)) body).
  { assert (Hx : firstn (length (sc_buf s)) (avail s) = sc_buf s).
    { unfold avail. rewrite firstn_app, Nat.sub_diag, firstn_all.
      simpl. apply app_nil_r. }
    rewrite Ha, firstn_app in Hx.
    replace (length (sc_buf s) - length body) with 0 in Hx by lia.
    simpl in Hx. rewrite app_nil_r in Hx. symmetry. exact Hx. }
  assert (Hno : IndexByte (sc_buf s) nl = None).
  { apply IndexByte_absent. intros Hin. rewrite Hbuf in Hin.
    apply IndexByte_absent in Hnl. apply Hnl.
    rewrite <- (firstn_skipn (length (sc_buf s)) body).
    apply in_or_app. left. exact Hin. }
  rewrite Scan_step_eq. destruct (Scan_iter s) as [[[|] s1]|s1] eqn:E.
  - apply Scan_iter_token in E. destruct E as (_ & _ & _ & _ & _ & _ & Hsp).
    rewrite He in Hsp. unfold split in Hsp. simpl in Hsp.
    rewrite Hno in Hsp. discriminate.
  - apply Scan_iter_stop in E.
    destruct E as [(Hne & _) | (_ & He1 & _)]; [congruence|].
    exists s1. auto.
  - assert (Hwf0 : sc_start s + length (sc_buf s) <= sc_buflen s)
      by (rewrite Hst; exact Hwf).
    destruct (Scan_iter_steady_continue s s1 Hwf0 Hsd E)
      as (Hwf1 & Hsd1 & Ha1 & _ & Hst1 & Hl1).
    assert (Hs0 : sc_start s1 = 0) by lia.
    rewrite Hs0 in Hwf1. simpl in Hwf1.
    assert (Hm1 : sc_buflen s1 <= MaxScanTokenSize) by lia.
    assert (He1 : sc_err s1 = None).
    { destruct (sc_err s1) as [e1|] eqn:Ee; [|reflexivity]. exfalso.
      rewrite Ha in Ha1. unfold avail in Ha1. rewrite Ee, app_nil_r in Ha1.
      rewrite <- Ha1 in Hmore. lia. }
    apply (IH _ eq_refl He1 (Hsd1 He1) Hs0 Hwf1 Hm1). congruence.
Qed.

(** ** bytes.Buffer

    The buffer is its unread bytes.  [copy] fills the front of the
    destination and says how many bytes it moved. *)
Definition copy (dst src : bytes) : bytes * nat :=
  let n := Nat.min (length dst) (length src) in
  (firstn n src ++ skipn n dst, n).

Definition Buffer_Write (b p : bytes) : bytes := b ++ p.

(** [Buffer.Read(p)]: the buffer after the call, the destination after the
    call, the count and the error. *)
Definition Buffer_Read (b p : bytes) : bytes * (bytes * nat * option error) :=
  match b with
  | [] =>
      if length p =? 0 then ([], (p, 0, None))
      else ([], (p, 0, Some io_EOF))
  | _ :: _ =>
      let '(p', n) := copy p b in
      (skipn n b, (p', n, None))
  end.

(** ** The stream reader *)

Definition StringLineFilter := bytes -> bytes * option error.

Definition NopFilter : StringLineFilter := fun i => (i, None).

Record StreamReader : Type := mkStreamReader {
  scanner : Scanner;
  filter : StringLineFilter;
  buffer : bytes;
  existsData : bool
}.

(** A [*StreamReader] is [None] when it is nil; so are the reader and the
    filter given to the constructor. *)
Definition NewStreamReader (r : option Reader) (f : option StringLineFilter)
  : option StreamReader :=
  match r with
  | None => None
  | Some rd =>
      let f := match f with None => NopFilter | Some f' => f' end in
      Some {| scanner := NewScanner rd; filter := f;
              buffer := []; existsData := true |}
  end.

(** ** StreamReader.Read *)

(** The body of the loop of [Read], entered with [existsData] true and
    [bufErr] nil: [inl] is a [break], [inr] goes back to the loop test. *)
Definition Read_iter (sr : StreamReader) (bufErr : option error)
  : (StreamReader * option error) + (StreamReader * option error) :=
  let '(ok, sc') := Scan (scanner sr) in
  let sr1 := {| scanner := sc'; filter := filter sr;
                buffer := buffer sr; existsData := ok |} in
  if negb (existsData sr1) then inl (sr1, bufErr)
  else
    let lineBytes := Scanner_Bytes (scanner sr1) in
    let '(lineStr, bufErr) := filter sr1 lineBytes in
    if isSome bufErr then inl (sr1, bufErr)
    else if negb (length lineStr =? 0) then
      inl ({| scanner := scanner sr1; filter := filter sr1;
              buffer := Buffer_Write (buffer sr1) lineStr;
              existsData := existsData sr1 |}, bufErr)
    else inr (sr1, bufErr).

Lemma Read_iter_shorter sr bufErr sr' bufErr' :
  Read_iter sr bufErr = inr (sr', bufErr') ->
  length (avail (scanner sr')) < length (avail (scanner sr)).
Proof.
  unfold Read_iter.
  destruct (Scan (scanner sr)) as [ok sc'] eqn:Es. simpl.
  destruct ok; simpl; [|discriminate].
  destruct (filter sr (Scanner_Bytes sc')) as [lineStr e].
  destruct (isSome e); [discriminate|].
  destruct (negb (length lineStr =? 0)); [discriminate|].
  intros H; inversion H; subst; simpl.
  apply Scan_shorter. exact Es.
Qed.

(** [for sr.existsData && bufErr == nil { ... }] *)
Equations Read_loop (st : StreamReader * option error)
  : StreamReader * option error
  by wf (length (avail (scanner (fst st)))) lt :=
  Read_loop st with inspect (existsData (fst st) && isNone (snd st)) := {
    | exist _ false _ => st
    | exist _ true _ with inspect (Read_iter (fst st) (snd st)) := {
        | exist _ (inl r) _ => r
        | exist _ (inr st') H => Read_loop st' } }.
Next Obligation.
  eapply Read_iter_shorter; eassumption.
Qed.

Record ReadResult : Type := mkReadResult {
  rr_sr : option StreamReader;
  rr_p : bytes;
  rr_n : nat;
  rr_err : option error
}.

(** [Read(p)]: the receiver and the destination after the call, the count
    and the error. *)
Definition Read (sr : option StreamReader) (p : bytes) : ReadResult :=
  match sr with
  | None =>
      {| rr_sr := None; rr_p := p; rr_n := 0; rr_err := Some ErrNilReader |}
  | Some sr0 =>
      let '(sr1, bufErr) := Read_loop (sr0, None) in
      let bufErr :=
        if negb (existsData sr1) && isNone bufErr
        then Scanner_Err (scanner sr1) else bufErr in
      match bufErr with
      | None =>
          let '(b', (p', n, e)) := Buffer_Read (buffer sr1) p in
          {| rr_sr := Some {| scanner := scanner sr1; filter := filter sr1;
                              buffer := b'; existsData := existsData sr1 |};
             rr_p := p'; rr_n := n; rr_err := e |}
      | Some e =>
          {| rr_sr := Some sr1; rr_p := p; rr_n := 0; rr_err := Some e |}
      end
  end.

(** The error [Read] settles on after its loop. *)
Definition settle (sr1 : StreamReader) (e : option error) : option error :=
  if negb (existsData sr1) && isNone e
  then Scanner_Err (scanner sr1) else e.

(** [make([]byte, k)] *)
Definition make (k : nat) : bytes := repeat zero k.

(** The bytes a call delivered: [p[:n]]. *)
Definition rr_data (r : ReadResult) : bytes := firstn (rr_n r) (rr_p r).

(** ** Reading a stream to its end

    A consumer that calls [Read] with a fresh destination of [k] bytes until
    a call returns an error, and gathers the bytes delivered; [fuel] bounds
    the number of calls, and [None] says the bound was reached first. *)
Fixpoint ReadAll (fuel k : nat) (sr : option StreamReader)
  : option (bytes * error) :=
  match fuel with
  | 0 => None
  | S fuel' =>
      let r := Read sr (make k) in
      match rr_err r with
      | Some e => Some (rr_data r, e)
      | None =>
          match ReadAll fuel' k (rr_sr r) with
          | Some (out, e) => Some (rr_data r ++ out, e)
          | None => None
          end
      end
  end.

(** The same with a destination size of its own for each call: [ks i] is
    the size of the destination of call [i]. *)
Fixpoint ReadAllWith (fuel : nat) (ks : nat -> nat) (sr : option StreamReader)
  : option (bytes * error) :=
  match fuel with
  | 0 => None
  | S fuel' =>
      let r := Read sr (make (ks 0)) in
      match rr_err r with
      | Some e => Some (rr_data r, e)
      | None =>
          match ReadAllWith fuel' (fun i => ks (S i)) (rr_sr r) with
          | Some (out, e) => Some (rr_data r ++ out, e)
          | None => None
          end
      end
  end.

(** The results of a given list of calls, one destination size per call. *)
Fixpoint Reads (sr : option StreamReader) (ks : list nat)
  : list (bytes * option error) * option StreamReader :=
  match ks with
  | [] => ([], sr)
  | k :: ks' =>
      let r := Read sr (make k) in
      let '(rs, sr') := Reads (rr_sr r) ks' in
      ((rr_data r, rr_err r) :: rs, sr')
  end.

(** ** The reader/closer pair and the JSON line filter *)

Record ReadCloser : Type := mkReadCloser {
  rc_Reader : option StreamReader;
  rc_Closer : option Reader
}.

Definition NewReadCloser (r : option StreamReader) (c : option Reader)
  : ReadCloser :=
  {| rc_Reader := r; rc_Closer := c |}.

(** The embedded reader answers [Read]. *)
Definition ReadCloser_Read (rc : ReadCloser) (p : bytes)
  : ReadCloser * (bytes * nat * option error) :=
  let r := Read (rc_Reader rc) p in
  ({| rc_Reader := rr_sr r; rc_Closer := rc_Closer rc |},
   (rr_p r, rr_n r, rr_err r)).

Section JSON.

(** [json.Valid] of the Go standard library. *)
Variable json_Valid : bytes -> bool.

Definition JSONFilter : StringLineFilter :=
  fun i => if json_Valid i then (i, None) else ([], None).

Definition NewJSONFilterReadCloser (r : option Reader) : ReadCloser :=
  NewReadCloser (NewStreamReader r (Some JSONFilter)) r.

End JSON.

(** ** A validator for JSON text

    A reading of [encoding/json.Valid] by recursive descent over the
    grammar of RFC 8259: one value, with white space around it. *)
Module Json.

Definition is_ws (c : byte) : bool :=
  byte_eqb c " "%char || byte_eqb c "009"%char
  || byte_eqb c "013"%char || byte_eqb c nl.

Definition is_digit (c : byte) : bool :=
  (48 <=? nat_of_ascii c) && (nat_of_ascii c <=? 57).

Definition is_hex (c : byte) : bool :=
  is_digit c
  || ((97 <=? nat_of_ascii c) && (nat_of_ascii c <=? 102))
  || ((65 <=? nat_of_ascii c) && (nat_of_ascii c <=? 70)).

Definition is_escape (c : byte) : bool :=
  byte_eqb c dq || byte_eqb c "\"%char || byte_eqb c "/"%char
  || byte_eqb c "b"%char || byte_eqb c "f"%char || byte_eqb c "n"%char
  || byte_eqb c "r"%char || byte_eqb c "t"%char.

Fixpoint skip_ws (l : bytes) : bytes :=
  match l with
  | c :: r => if is_ws c then skip_ws r else l
  | [] => []
  end.

Fixpoint skip_digits (l : bytes) : bytes :=
  match l with
  | c :: r => if is_digit c then skip_digits r else l
  | [] => []
  end.

(** At least one digit. *)
Definition digits1 (l : bytes) : option bytes :=
  match l with
  | c :: r => if is_digit c then Some (skip_digits r) else None
  | [] => None
  end.

(** The rest of a string, after its opening quote. *)
Fixpoint string_body (l : bytes) : option bytes :=
  match l with
  | [] => None
  | c :: r =>
      if byte_eqb c dq then Some r
      else if byte_eqb c "\"%char then
        match r with
        | [] => None
        | e :: r' =>
            if is_escape e then string_body r'
            else if byte_eqb e "u"%char then
              match r' with
              | h1 :: h2 :: h3 :: h4 :: r'' =>
                  if is_hex h1 && is_hex h2 && is_hex h3 && is_hex h4
                  then string_body r'' else None
              | _ => None
              end
            else None
        end
      else if nat_of_ascii c <? 32 then None
      else string_body r
  end.

Definition number (l : bytes) : option bytes :=
  let l1 := match l with
            | c :: r => if byte_eqb c "-"%char then r else l
            | [] => l
            end in
  let int := match l1 with
             | c :: r =>
                 if byte_eqb c "0"%char then Some r
                 else if is_digit c then Some (skip_digits r)
                 else None
             | [] => None
             end in
  match int with
  | None => None
  | Some l2 =>
      let frac := match l2 with
                  | c :: r =>
                      if byte_eqb c "."%char then digits1 r else Some l2
                  | [] => Some l2
                  end in
      match frac with
      | None => None
      | Some l3 =>
          match l3 with
          | c :: r =>
              if byte_eqb c "e"%char || byte_eqb c "E"%char then
                match r with
                | s :: r' =>
                    if byte_eqb s "+"%char || byte_eqb s "-"%char
                    then digits1 r' else digits1 r
                | [] => None
                end
              else Some l3
          | [] => Some l3
          end
      end
  end.

Fixpoint literal (w l : bytes) : option bytes :=
  match w, l with
  | [], _ => Some l
  | a :: w', b :: l' => if byte_eqb a b then literal w' l' else None
  | _ :: _, [] => None
  end.

(** [value], [elements] (after the bracket of a non-empty array) and
    [members] (after the brace of a non-empty object); [fuel] bounds the
    depth of the descent. *)
Fixpoint value (fuel : nat) (l : bytes) : option bytes :=
  match fuel with
  | 0 => None
  | S f =>
      match l with
      | [] => None
      | c :: r =>
          if byte_eqb c "{"%char then
            match skip_ws r with
            | c1 :: r1 =>
                if byte_eqb c1 "}"%char then Some r1
                else members f (c1 :: r1)
            | [] => None
            end
          else if byte_eqb c "["%char then
            match skip_ws r with
            | c1 :: r1 =>
                if byte_eqb c1 "]"%char then Some r1
                else elements f (c1 :: r1)
            | [] => None
            end
          else if byte_eqb c dq then string_body r
          else if byte_eqb c "t"%char then literal (str "rue") r
          else if byte_eqb c "f"%char then literal (str "alse") r
          else if byte_eqb c "n"%char then literal (str "ull") r
          else number l
      end
  end
with elements (fuel : nat) (l : bytes) : option bytes :=
  match fuel with
  | 0 => None
  | S f =>
      match value f l with
      | None => None
      | Some r =>
          match skip_ws r with
          | c :: r1 =>
              if byte_eqb c ","%char then elements f (skip_ws r1)
              else if byte_eqb c "]"%char then Some r1
              else None
          | [] => None
          end
      end
  end
with members (fuel : nat) (l : bytes) : option bytes :=
  match fuel with
  | 0 => None
  | S f =>
      match l with
      | c :: r =>
          if byte_eqb c dq then
            match string_body r with
            | None => None
            | Some r1 =>
                match skip_ws r1 with
                | c2 :: r2 =>
                    if byte_eqb c2 ":"%char then
                      match value f (skip_ws r2) with
                      | None => None
                      | Some r3 =>
                          match skip_ws r3 with
                          | c4 :: r4 =>
                              if byte_eqb c4 ","%char
                              then members f (skip_ws r4)
                              else if byte_eqb c4 "}"%char then Some r4
                              else None
                          | [] => None
                          end
                      end
                    else None
                | [] => None
                end
            end
          else None
      | [] => None
      end
  end.

Definition Valid (data : bytes) : bool :=
  match value (2 * length data + 2) (skip_ws data) with
  | Some r => match skip_ws r with [] => true | _ :: _ => false end
  | None => false
  end.

End Json.

(** ** io.Reader, io.Writer and io.Closer as interfaces

    A value of an interface type is an object with its state; a method
    takes the state and returns the state after the call.  Nil interface
    values, on which a call panics, are left out. *)
Class io_Reader (R : Type) : Type :=
  io_Read : R -> bytes -> R * (bytes * nat * option error).

Class io_Writer (W : Type) : Type :=
  io_Write : W -> bytes -> W * (nat * option error).

Class io_Closer (C : Type) : Type :=
  io_Close : C -> C * option error.

#[export] Instance StreamReader_Reader : io_Reader (option StreamReader) :=
  fun sr p => let r := Read sr p in (rr_sr r, (rr_p r, rr_n r, rr_err r)).

#[export] Instance ReadCloser_Reader : io_Reader ReadCloser :=
  ReadCloser_Read.

(** [bytes.Buffer.Write] appends and never fails. *)
#[export] Instance Buffer_Writer : io_Writer bytes :=
  fun b p => (Buffer_Write b p, (length p, None)).

(** The reader of the tests ([mockReader], and the [strings.Reader] that
    [mockReadCloser] embeds, which reads the same way). *)
Record mockReader : Type := mkMockReader {
  mr_data : bytes;
  mr_pos : nat
}.

Definition mockReader_Read (m : mockReader) (p : bytes)
  : mockReader * (bytes * nat * option error) :=
  if length (mr_data m) <=? mr_pos m then (m, (p, 0, Some io_EOF))
  else
    let '(p', n) := copy p (skipn (mr_pos m) (mr_data m)) in
    ({| mr_data := mr_data m; mr_pos := mr_pos m + n |}, (p', n, None)).

#[export] Instance mockReader_Reader : io_Reader mockReader :=
  mockReader_Read.

(** The read-closer of the tests of the tee. *)
Record mockReadCloser : Type := mkMockReadCloser {
  mrc_Reader : mockReader;
  mrc_closed : bool;
  mrc_err : option error
}.

Definition newMockReadCloser (data : bytes) : mockReadCloser :=
  {| mrc_Reader := {| mr_data := data; mr_pos := 0 |};
     mrc_closed := false; mrc_err := None |}.

#[export] Instance mockReadCloser_Reader : io_Reader mockReadCloser :=
  fun m p =>
    let '(r', res) := mockReader_Read (mrc_Reader m) p in
    ({| mrc_Reader := r'; mrc_closed := mrc_closed m;
        mrc_err := mrc_err m |}, res).

#[export] Instance mockReadCloser_Closer : io_Closer mockReadCloser :=
  fun m => ({| mrc_Reader := mrc_Reader m; mrc_closed := true;
               mrc_err := mrc_err m |}, mrc_err m).

(** ** The tee

    [NewTeeReaderCloser(r, w)] keeps [io.TeeReader(r, w)] as its reader and
    [r] as its closer: one object [r] stands behind both fields, so the
    model keeps it once, with the sink [w], and [Read] and [Close] both
    act on it. *)
Record TeeReaderCloser (R W : Type) : Type := mkTeeReaderCloser {
  tee_r : R;
  tee_w : W
}.
Arguments mkTeeReaderCloser {R W}.
Arguments tee_r {R W}.
Arguments tee_w {R W}.

Definition NewTeeReaderCloser {R W : Type} (r : R) (w : W)
  : TeeReaderCloser R W :=
  {| tee_r := r; tee_w := w |}.

(** [Read] is the [Read] of [io.TeeReader]: what was read is written to
    the sink, and an error of the write is returned as the error of the
    read, with the count of the write. *)
Definition TeeReaderCloser_Read {R W : Type} `{io_Reader R} `{io_Writer W}
  (t : TeeReaderCloser R W) (p : bytes)
  : TeeReaderCloser R W * (bytes * nat * option error) :=
  let '(r', (p', n, err)) := io_Read (tee_r t) p in
  if 0 <? n then
    let '(w', (m, werr)) := io_Write (tee_w t) (firstn n p') in
    match werr with
    | Some e => ({| tee_r := r'; tee_w := w' |}, (p', m, Some e))
    | None => ({| tee_r := r'; tee_w := w' |}, (p', n, err))
    end
  else ({| tee_r := r'; tee_w := tee_w t |}, (p', n, err)).

Definition TeeReaderCloser_Close {R W : Type} `{io_Closer R}
  (t : TeeReaderCloser R W) : TeeReaderCloser R W * option error :=
  let '(r', e) := io_Close (tee_r t) in
  ({| tee_r := r'; tee_w := tee_w t |}, e).

#[export] Instance TeeReaderCloser_Reader {R W : Type}
  `{io_Reader R} `{io_Writer W} : io_Reader (TeeReaderCloser R W) :=
  TeeReaderCloser_Read.

(** ** Rows of calls on an object

    A call is a [Read] with a fresh destination of [k] bytes or a
    [Close]; its result is the bytes delivered with the error, or the
    error of the close. *)
Inductive op : Type :=
| OpRead (k : nat)
| OpClose.

Inductive res : Type :=
| ResRead (data : bytes) (err : option error)
| ResClose (err : option error).

Definition res_data (r : res) : bytes :=
  match r with
  | ResRead d _ => d
  | ResClose _ => []
  end.

Definition read_res (out : bytes * nat * option error) : res :=
  let '(p', n, err) := out in ResRead (firstn n p') err.

(** On an object that reads and closes. *)
Fixpoint run {O : Type} `{io_Reader O} `{io_Closer O}
  (ops : list op) (o : O) : O * list res :=
  match ops with
  | [] => (o, [])
  | OpRead k :: ops' =>
      let '(o', out) := io_Read o (make k) in
      let '(o'', rs) := run ops' o' in
      (o'', read_res out :: rs)
  | OpClose :: ops' =>
      let '(o', e) := io_Close o in
      let '(o'', rs) := run ops' o' in
      (o'', ResClose e :: rs)
  end.

(** On a tee. *)
Fixpoint run_tee {R W : Type} `{io_Reader R} `{io_Closer R} `{io_Writer W}
  (ops : list op) (t : TeeReaderCloser R W)
  : TeeReaderCloser R W * list res :=
  match ops with
  | [] => (t, [])
  | OpRead k :: ops' =>
      let '(t', out) := TeeReaderCloser_Read t (make k) in
      let '(t'', rs) := run_tee ops' t' in
      (t'', read_res out :: rs)
  | OpClose :: ops' =>
      let '(t', e) := TeeReaderCloser_Close t in
      let '(t'', rs) := run_tee ops' t' in
      (t'', ResClose e :: rs)
  end.

(** Reading any reader to its end, as [ReadAll] does a stream; the state
    the reader is left in comes with the result. *)
Fixpoint ReadAllOf {R : Type} `{io_Reader R} (fuel k : nat) (r : R)
  : option (bytes * error * R) :=
  match fuel with
  | 0 => None
  | S fuel' =>
      let '(r', (p', n, err)) := io_Read r (make k) in
      match err with
      | Some e => Some (firstn n p', e, r')
      | None =>
          match ReadAllOf fuel' k r' with
          | Some (out, e, r'') => Some (firstn n p' ++ out, e, r'')
          | None => None
          end
      end
  end.

(** ** What a reading should give *)

(** What one pass of the loop of [Read] does with the records still to
    come: the bytes it appends to the buffer, its error, the records left
    and the value of [existsData]. *)
Fixpoint pull (f : StringLineFilter) (ts : list bytes)
  : bytes * option error * list bytes * bool :=
  match ts with
  | [] => ([], None, [], false)
  | t :: ts' =>
      match f t with
      | (_, Some e) => ([], Some e, ts', true)
      | (lineStr, None) =>
          if negb (length lineStr =? 0) then (lineStr, None, ts', true)
          else pull f ts'
      end
  end.

(** The failure a source ends on: none when it ends cleanly. *)
Definition end_of (fin : error) : option error :=
  match fin with
  | io_EOF => None
  | e => Some e
  end.

(** What reading to the end with a destination that is never too small
    gives: the bytes of the accepted records up to the first failure, and
    that failure ([None] when the source ends cleanly). *)
Fixpoint outcome (f : StringLineFilter) (ts : list bytes) (fin : error)
  : bytes * option error :=
  match ts with
  | [] => ([], end_of fin)
  | t :: ts' =>
      match f t with
      | (_, Some e) => ([], Some e)
      | (lineStr, None) =>
          let '(o, r) := outcome f ts' fin in (lineStr ++ o, r)
      end
  end.

Definition reported (r : option error) : error :=
  match r with
  | None => io_EOF
  | Some e => e
  end.

Definition is_prefix (a b : bytes) : Prop := exists c, b = a ++ c.

Definition dropped (f : StringLineFilter) (t : bytes) : Prop :=
  f t = ([], None).

(** A destination of [k] bytes takes whole every record accepted before
    the first failure of the filter. *)
Fixpoint fits (f : StringLineFilter) (k : nat) (ts : list bytes) : Prop :=
  match ts with
  | [] => True
  | t :: ts' =>
      match f t with
      | (_, Some _) => True
      | (lineStr, None) => length lineStr <= k /\ fits f k ts'
      end
  end.

Definition accepted (f : StringLineFilter) (ts : list bytes) : bytes :=
  concat (map (fun t => fst (f t)) ts).

Definition no_error (f : StringLineFilter) (t : bytes) : Prop :=
  snd (f t) = None.

(** ** Concrete streams *)

(** A filter that fails with error [n] on the record [bad] and passes every
    other record on. *)
Definition failOn (bad : bytes) (n : nat) : StringLineFilter :=
  fun i => if bytes_eqb i bad then ([], Some (ErrOther n)) else (i, None).

Definition rec_ab : bytes := str "ab" ++ [nl].
Definition rec_cd : bytes := str "cd" ++ [nl].
Definition rec_ef : bytes := str "ef" ++ [nl].

Definition src1 : Reader :=
  strings_NewReader (str "ab" ++ [nl] ++ str "cd" ++ [nl]).

Definition src3 : Reader :=
  strings_NewReader (str "ab" ++ [nl] ++ str "cd" ++ [nl] ++ str "ef" ++ [nl]).

Definition srcErr : Reader :=
  [(str "ab" ++ [nl], None); ([], Some (ErrOther 7))].

Definition src_xyz : Reader :=
  strings_NewReader (str "xy" ++ [nl] ++ str "z" ++ [nl]).

Definition sr_ended : StreamReader :=
  {| scanner := {| sc_r := []; sc_buflen := startBufSize; sc_start := 0;
                   sc_buf := []; sc_tok := []; sc_err := Some io_EOF |};
     filter := NopFilter; buffer := rec_ab; existsData := false |}.

Definition sr_empty : StreamReader :=
  {| scanner := NewScanner []; filter := NopFilter;
     buffer := []; existsData := true |}.

Definition sr_ab_cd : StreamReader :=
  {| scanner := NewScanner src1; filter := NopFilter;
     buffer := []; existsData := true |}.


Definition json_in : bytes :=
  str "{" ++ [dq] ++ str "a" ++ [dq] ++ str ":1}" ++ [nl]
  ++ str "not json" ++ [nl] ++ str "[1,2]" ++ [nl].


(** A filter that drops the records with a [b] and doubles the others. *)
Definition dropB_double : StringLineFilter :=
  fun i => if existsb (byte_eqb "b"%char) i then ([], None)
           else (i ++ i, None).

Definition dropAll : StringLineFilter := fun _ => ([], None).

Definition sr_fail_ab : StreamReader :=
  {| scanner := NewScanner src3; filter := failOn rec_ab 1;
     buffer := []; existsData := true |}.

(** The cases of [TestSplit]. *)
Example split_tests :
  split [] true = (0, None, None)
  /\ split (str "hello" ++ [nl]) false
     = (6, Some (str "hello" ++ [nl]), None)
  /\ split (str "hello") true = (5, Some (str "hello"), None)
  /\ split (str "hello") false = (0, None, None)
  /\ split (str "line1" ++ [nl] ++ str "line2" ++ [nl] ++ str "line3") false
     = (6, Some (str "line1" ++ [nl]), None).
Proof. repeat split. Qed.

(** A line of [MaxScanTokenSize] bytes and its newline, one byte more than
    the buffer of the scanner takes, and a stream over it. *)
Definition long_line : bytes := repeat "a"%char MaxScanTokenSize ++ [nl].

(** A source that makes no progress: more calls that return no bytes and
    no error than the scanner bears, before the bytes [src1] gives. *)
Definition src_stalled : Reader :=
  repeat ([], None) (S maxConsecutiveEmptyReads)
  ++ [(str "ab" ++ [nl] ++ str "cd" ++ [nl], None)].


(** [TestStreamReader_Read_NoFinalNewline]. *)
Example Read_test_no_final_newline :
  fst (Reads (NewStreamReader
                (Some (strings_NewReader (str "line1" ++ [nl] ++ str "line2")))
                (Some NopFilter))
             [10; 10; 10])
  = [(str "line1" ++ [nl], None); (str "line2", None); ([], Some io_EOF)].
Proof. vm_compute. reflexivity. Qed.

(** [TestStreamReader_Read_FilterError]. *)
Example Read_test_filter_error :
  fst (Reads (NewStreamReader
                (Some (strings_NewReader
                         (str "line1" ++ [nl] ++ str "line2" ++ [nl])))
                (Some (failOn (str "line2" ++ [nl]) 0)))
             [10; 10])
  = [(str "line1" ++ [nl], None); ([], Some (ErrOther 0))].
Proof. vm_compute. reflexivity. Qed.

(** [TestNewJSONFilterReadCloser], with the validator above for
    [json.Valid]. *)
Definition q (s : string) : bytes := [dq] ++ str s ++ [dq].

Definition json_test_data : bytes :=
  str "{" ++ q "valid" ++ str ": " ++ q "json" ++ str "}" ++ [nl]
  ++ str "invalid line" ++ [nl]
  ++ str "{" ++ q "another" ++ str ": " ++ q "valid" ++ str "}" ++ [nl]
  ++ str "not json at all" ++ [nl]
  ++ str "[" ++ q "array" ++ str ", " ++ q "is" ++ str ", " ++ q "valid"
  ++ str "]" ++ [nl].

Definition json_test_expected : bytes :=
  str "{" ++ q "valid" ++ str ": " ++ q "json" ++ str "}" ++ [nl]
  ++ str "{" ++ q "another" ++ str ": " ++ q "valid" ++ str "}" ++ [nl]
  ++ str "[" ++ q "array" ++ str ", " ++ q "is" ++ str ", " ++ q "valid"
  ++ str "]" ++ [nl].

Example json_filter_test :
  ReadAll 5 512
    (rc_Reader (NewJSONFilterReadCloser Json.Valid
                  (Some (strings_NewReader json_test_data))))
  = Some (json_test_expected, io_EOF).
Proof. vm_compute. reflexivity. Qed.

Example Scan_ex1 :
  Scan (NewScanner (strings_NewReader (str "ab" ++ [nl] ++ str "cd")))
  = (true, {| sc_r := []; sc_buflen := startBufSize; sc_start := 3;
              sc_buf := str "cd"; sc_tok := str "ab" ++ [nl];
              sc_err := None |}).
Proof. vm_compute. reflexivity. Qed.

Example Read_ex1 :
  let r1 := Read (NewStreamReader (Some src1) None) (make 10) in
  let r2 := Read (rr_sr r1) (make 10) in
  let r3 := Read (rr_sr r2) (make 10) in
  (rr_data r1, rr_err r1, rr_data r2, rr_err r2, rr_data r3, rr_err r3)
  = (str "ab" ++ [nl], None, str "cd" ++ [nl], None, [], Some io_EOF).
Proof. vm_compute. reflexivity. Qed.

Example tokens_ex1 :
  tokens (NewScanner [(str "a", None); (str "b" ++ [nl] ++ str "c", None)])
  = [str "ab" ++ [nl]; str "c"].
Proof. vm_compute. reflexivity. Qed.

(** ** Lemmas on pull and outcome *)

Lemma pull_inv f ts app e rest ok :
  pull f ts = (app, e, rest, ok) ->
  if ok then
    exists pre t, ts = pre ++ t :: rest /\ Forall (dropped f) pre
      /\ match e with
         | Some e0 => app = [] /\ snd (f t) = Some e0
         | None => f t = (app, None) /\ app <> []
         end
  else app = [] /\ e = None /\ rest = [] /\ Forall (dropped f) ts.
Proof.
  induction ts as [|t ts IH]; simpl.
  - intros H; inversion H; subst. auto.
  - destruct (f t) as [lineStr [e0|]] eqn:Ef.
    + intros H; inversion H; subst.
      exists [], t. rewrite Ef. simpl. auto.
    + destruct (length lineStr =? 0) eqn:El; simpl.
      * apply Nat.eqb_eq in El.
        assert (lineStr = []) by (destruct lineStr; [auto|discriminate]).
        subst lineStr. intros H. specialize (IH H).
        destruct ok.
        -- destruct IH as (pre & t' & -> & Hpre & He).
           exists (t :: pre), t'. repeat split; auto.
        -- destruct IH as (-> & -> & -> & Hall). repeat split; auto.
      * intros H; inversion H; subst.
        exists [], t. rewrite Ef. repeat split; auto.
        intros ->. discriminate.
Qed.

Lemma outcome_pull f ts fin app e rest ok :
  pull f ts = (app, e, rest, ok) ->
  outcome f ts fin =
  match e with
  | Some e0 => ([], Some e0)
  | None =>
      if ok then let '(o, r) := outcome f rest fin in (app ++ o, r)
      else ([], end_of fin)
  end.
Proof.
  revert app e rest ok. induction ts as [|t ts IH]; simpl; intros app e rest ok.
  - intros H; inversion H; subst. reflexivity.
  - destruct (f t) as [lineStr [e0|]] eqn:Ef.
    + intros H; inversion H; subst. reflexivity.
    + destruct (length lineStr =? 0) eqn:El; simpl.
      * apply Nat.eqb_eq in El.
        assert (lineStr = []) by (destruct lineStr; [auto|discriminate]).
        subst lineStr. intros H. rewrite (IH _ _ _ _ H).
        destruct e as [e0|]; [reflexivity|].
        destruct ok; [|reflexivity].
        destruct (outcome f rest fin) as [o r]. reflexivity.
      * intros H; inversion H; subst. reflexivity.
Qed.

Lemma fits_pull f k ts app rest :
  pull f ts = (app, None, rest, true) -> fits f k ts ->
  length app <= k /\ fits f k rest.
Proof.
  induction ts as [|t ts IH]; simpl; [discriminate|].
  destruct (f t) as [lineStr [e0|]]; [discriminate|].
  destruct (negb (length lineStr =? 0)).
  - intros H; inversion H; subst. tauto.
  - intros H [_ Hf]. auto.
Qed.

Lemma fits_all f k ts :
  Forall (fun t => length (fst (f t)) <= k) ts -> fits f k ts.
Proof.
  induction 1 as [|t ts Ht _ IH]; simpl; [exact I|].
  destruct (f t) as [lineStr [e0|]]; simpl in *; auto.
Qed.

Lemma outcome_no_error f ts fin :
  Forall (no_error f) ts -> outcome f ts fin = (accepted f ts, end_of fin).
Proof.
  unfold accepted, no_error.
  induction 1 as [|t ts Ht _ IH]; simpl; [reflexivity|].
  destruct (f t) as [lineStr e0]; simpl in *; subst e0.
  rewrite IH. reflexivity.
Qed.

Lemma outcome_error_at f pre tK post fin e :
  Forall (no_error f) pre -> snd (f tK) = Some e ->
  outcome f (pre ++ tK :: post) fin = (accepted f pre, Some e).
Proof.
  unfold accepted, no_error. intros Hpre HK.
  induction Hpre as [|t ts Ht _ IH]; simpl.
  - destruct (f tK) as [x e0]; simpl in *; subst e0. reflexivity.
  - destruct (f t) as [lineStr e0]; simpl in *; subst e0.
    rewrite IH. reflexivity.
Qed.

Lemma fits_before f k pre tK post e :
  Forall (fun t => length (fst (f t)) <= k) pre -> snd (f tK) = Some e ->
  fits f k (pre ++ tK :: post).
Proof.
  intros Hpre HK. induction Hpre as [|t ts Ht _ IH]; simpl.
  - destruct (f tK) as [x e0]; simpl in *; subst e0. exact I.
  - destruct (f t) as [lineStr [e0|]]; simpl in *; auto.
Qed.

Lemma is_prefix_nil b : is_prefix [] b.
Proof. exists b. reflexivity. Qed.

Lemma is_prefix_app a b c : is_prefix b c -> is_prefix (a ++ b) (a ++ c).
Proof. intros [d ->]. exists d. rewrite app_assoc. reflexivity. Qed.

Lemma is_prefix_refl a : is_prefix a a.
Proof. exists []. rewrite app_nil_r. reflexivity. Qed.

(** ** Lemmas on the loop of Read *)

Lemma Read_loop_eq st :
  Read_loop st =
  if existsData (fst st) && isNone (snd st) then
    match Read_iter (fst st) (snd st) with
    | inl r => r
    | inr st' => Read_loop st'
    end
  else st.
Proof.
  funelim (Read_loop st);
    repeat match goal with
           | E : existsData _ && _ = _ |- _ => rewrite E
           | E : Read_iter _ _ = _ |- _ => rewrite E
           end; reflexivity.
Qed.

(** One pass of the loop, told by [pull] on the records to come. *)
Lemma Read_loop_pull :
  forall sr, existsData sr = true ->
  forall sr1 e app e' rest ok,
    Read_loop (sr, None) = (sr1, e) ->
    pull (filter sr) (tokens (scanner sr)) = (app, e', rest, ok) ->
    buffer sr1 = buffer sr ++ app /\ e = e'
    /\ existsData sr1 = ok /\ filter sr1 = filter sr
    /\ (ok = true ->
        tokens (scanner sr1) = rest
        /\ final_err (scanner sr1) = final_err (scanner sr))
    /\ (ok = false ->
        sc_err (scanner sr1) = Some (final_err (scanner sr))
        /\ (final_err (scanner sr) <> bufio_ErrTooLong ->
            tokens (scanner sr1) = [])).
Proof.
  intros sr.
  induction sr as [sr IH]
    using (well_founded_induction
             (Wf_nat.well_founded_ltof _
                (fun x => length (avail (scanner x))))).
  intros Hlive sr1 e app e' rest ok.
  rewrite Read_loop_eq. simpl fst; simpl snd. rewrite Hlive. simpl andb.
  rewrite (tokens_eq (scanner sr)). unfold Read_iter.
  destruct (Scan (scanner sr)) as [[|] sc'] eqn:Es; simpl.
  - unfold Scanner_Bytes. pose proof (final_err_true _ _ Es) as Hfe.
    destruct (filter sr (sc_tok sc')) as [lineStr [e0|]] eqn:Ef; simpl.
    + intros H1 H2; inversion H1; inversion H2; subst; simpl.
      rewrite app_nil_r.
      repeat split; auto; discriminate.
    + destruct (negb (length lineStr =? 0)) eqn:El.
      * intros H1 H2; inversion H1; inversion H2; subst; simpl.
        repeat split; auto; discriminate.
      * intros H1 H2.
        pose (sr2 := {| scanner := sc'; filter := filter sr;
                        buffer := buffer sr; existsData := true |}).
        assert (Hlt : Wf_nat.ltof _ (fun x => length (avail (scanner x)))
                        sr2 sr).
        { unfold Wf_nat.ltof; simpl. apply Scan_shorter. exact Es. }
        destruct (IH sr2 Hlt eq_refl sr1 e app e' rest ok H1 H2)
          as (Hb & He & Hok & Hf & Ht & Hend).
        simpl in *. rewrite Hfe in *. tauto.
  - intros H1 H2; inversion H1; inversion H2; subst; simpl.
    rewrite app_nil_r.
    split; [reflexivity | split; [reflexivity | split; [reflexivity |
      split; [reflexivity | split; [discriminate|]]]]].
    intros _. split; [apply (final_err_false _ _ Es)|].
    apply (Scan_false_tokens _ _ Es).
Qed.

(** ** Lemmas on the buffer and on one call of Read *)

Lemma Buffer_Read_spec b p :
  let '(b', (p', n, e)) := Buffer_Read b p in
  b' = skipn (length p) b
  /\ firstn n p' = firstn (length p) b
  /\ n = Nat.min (length p) (length b)
  /\ e = if (length b =? 0) && negb (length p =? 0)
         then Some io_EOF else None.
Proof.
  unfold Buffer_Read. destruct b as [|x b].
  - destruct (length p =? 0) eqn:E; simpl;
      rewrite skipn_nil, firstn_nil, Nat.min_0_r; auto.
  - unfold copy. set (n := Nat.min (length p) (length (x :: b))).
    assert (Hn : n <= length (x :: b)) by (subst n; lia).
    assert (Hfn : firstn n (x :: b) = firstn (length p) (x :: b)).
    { subst n. destruct (Nat.le_ge_cases (length p) (length (x :: b))).
      - rewrite Nat.min_l by assumption. reflexivity.
      - rewrite Nat.min_r by assumption.
        rewrite !firstn_all2 by lia. reflexivity. }
    assert (Hsk : skipn n (x :: b) = skipn (length p) (x :: b)).
    { subst n. destruct (Nat.le_ge_cases (length p) (length (x :: b))).
      - rewrite Nat.min_l by assumption. reflexivity.
      - rewrite Nat.min_r by assumption.
        rewrite !skipn_all2 by lia. reflexivity. }
    repeat split; auto.
    rewrite firstn_app, length_firstn.
    replace (n - Nat.min n (length (x :: b))) with 0 by lia.
    rewrite firstn_firstn, Nat.min_id. simpl firstn at 2.
    rewrite app_nil_r. exact Hfn.
Qed.

Lemma Read_error sr p sr1 e e0 :
  Read_loop (sr, None) = (sr1, e) -> settle sr1 e = Some e0 ->
  Read (Some sr) p
  = {| rr_sr := Some sr1; rr_p := p; rr_n := 0; rr_err := Some e0 |}.
Proof.
  intros HL Hs. unfold Read. rewrite HL. fold (settle sr1 e). rewrite Hs.
  reflexivity.
Qed.

Lemma Read_deliver sr p sr1 e :
  Read_loop (sr, None) = (sr1, e) -> settle sr1 e = None ->
  rr_sr (Read (Some sr) p)
  = Some {| scanner := scanner sr1; filter := filter sr1;
            buffer := skipn (length p) (buffer sr1);
            existsData := existsData sr1 |}
  /\ rr_data (Read (Some sr) p) = firstn (length p) (buffer sr1)
  /\ rr_n (Read (Some sr) p) = Nat.min (length p) (length (buffer sr1))
  /\ rr_err (Read (Some sr) p)
     = if (length (buffer sr1) =? 0) && negb (length p =? 0)
       then Some io_EOF else None.
Proof.
  intros HL Hs. unfold Read, rr_data. rewrite HL. fold (settle sr1 e).
  rewrite Hs. pose proof (Buffer_Read_spec (buffer sr1) p) as HB.
  destruct (Buffer_Read (buffer sr1) p) as [b' [[p' n] e']]. simpl.
  destruct HB as (-> & Hd & Hn & He). auto.
Qed.

Lemma Read_loop_exhausted sr e :
  existsData sr = false -> Read_loop (sr, e) = (sr, e).
Proof.
  intros H. rewrite Read_loop_eq. simpl. rewrite H. reflexivity.
Qed.

Lemma length_make k : length (make k) = k.
Proof. apply repeat_length. Qed.

(** The state a call leaves, from the state its loop left. *)
Lemma Read_state sr p sr1 e :
  Read_loop (sr, None) = (sr1, e) ->
  exists sr',
    rr_sr (Read (Some sr) p) = Some sr'
    /\ scanner sr' = scanner sr1 /\ existsData sr' = existsData sr1
    /\ filter sr' = filter sr1
    /\ rr_data (Read (Some sr) p) ++ buffer sr' = buffer sr1
    /\ (rr_err (Read (Some sr) p) = None ->
        buffer sr' = skipn (length p) (buffer sr1)).
Proof.
  intros HL. destruct (settle sr1 e) as [e0|] eqn:Hs.
  - rewrite (Read_error sr p sr1 e e0 HL Hs). exists sr1. simpl.
    repeat split; auto. discriminate.
  - destruct (Read_deliver sr p sr1 e HL Hs) as (Hsr & Hd & _ & _).
    rewrite Hsr, Hd. eexists. split; [reflexivity|]. simpl.
    repeat split; auto. apply firstn_skipn.
Qed.


Lemma Read_zero sr sr1 e :
  Read_loop (sr, None) = (sr1, e) -> settle sr1 e = None ->
  Read (Some sr) []
  = {| rr_sr := Some sr1; rr_p := []; rr_n := 0; rr_err := None |}.
Proof.
  intros HL Hs. unfold Read. rewrite HL. fold (settle sr1 e). rewrite Hs.
  destruct sr1 as [sc f b ex]. simpl. destruct b; reflexivity.
Qed.

(** An error comes with no bytes. *)
Lemma Read_err_zero sr p e :
  rr_err (Read sr p) = Some e ->
  rr_n (Read sr p) = 0 /\ rr_data (Read sr p) = [].
Proof.
  destruct sr as [sr|]; [|intros _; split; reflexivity].
  destruct (Read_loop (sr, None)) as [sr1 e1] eqn:HL.
  destruct (settle sr1 e1) as [e0|] eqn:Hs.
  - rewrite (Read_error sr p sr1 e1 e0 HL Hs). intros _. split; reflexivity.
  - destruct (Read_deliver sr p sr1 e1 HL Hs) as (_ & Hd & Hn & He).
    rewrite He, Hd, Hn.
    destruct (length (buffer sr1) =? 0) eqn:E0; [|discriminate].
    apply Nat.eqb_eq in E0. intros _.
    destruct (buffer sr1); [|discriminate]. rewrite firstn_nil.
    split; [apply Nat.min_0_r | reflexivity].
Qed.

(** ** Reading a stream to its end *)

Lemma Scanner_Err_end s fin :
  sc_err s = Some fin -> Scanner_Err s = end_of fin.
Proof. unfold Scanner_Err. intros ->. destruct fin; reflexivity. Qed.

Lemma ReadAllWith_const fuel k :
  forall sr, ReadAllWith fuel (fun _ => k) sr = ReadAll fuel k sr.
Proof.
  induction fuel as [|fuel IH]; intros sr; [reflexivity|].
  cbn [ReadAllWith ReadAll]. rewrite IH. reflexivity.
Qed.

Lemma ReadAllWith_same fuel ks a b :
  (forall p, Read a p = Read b p) ->
  ReadAllWith fuel ks a = ReadAllWith fuel ks b.
Proof. intros H. destruct fuel; simpl; [|rewrite H]; reflexivity. Qed.

Lemma ReadAllWith_exhausted_clean :
  forall n ks sr, (forall i, 0 < ks i) -> length (buffer sr) <= n ->
  existsData sr = false -> Scanner_Err (scanner sr) = None ->
  exists fuel, ReadAllWith fuel ks (Some sr) = Some (buffer sr, io_EOF).
Proof.
  induction n as [|n IH]; intros ks sr Hk Hlen Hex Herr;
    pose proof (Hk 0) as Hk0;
    pose proof (Read_loop_exhausted sr None Hex) as HL;
    assert (Hs : settle sr None = None)
      by (unfold settle; rewrite Hex; exact Herr);
    destruct (@Read_deliver sr (make (ks 0)) sr None HL Hs)
      as (Hsr & Hd & _ & He);
    rewrite length_make in *.
  - exists 1. cbn [ReadAllWith].
    rewrite He, Hd. destruct (buffer sr); [|simpl in Hlen; lia].
    simpl. destruct (ks 0); [lia|]. reflexivity.
  - destruct (buffer sr) as [|x b] eqn:Eb.
    + exists 1. cbn [ReadAllWith]. rewrite He, Hd. simpl.
      destruct (ks 0); [lia|]. reflexivity.
    + set (sr2 := {| scanner := scanner sr; filter := filter sr;
                     buffer := skipn (ks 0) (x :: b);
                     existsData := existsData sr |}) in *.
      assert (Hlen2 : length (buffer sr2) <= n).
      { simpl in Hlen. unfold sr2; simpl buffer.
        rewrite length_skipn. simpl length. lia. }
      destruct (IH (fun i => ks (S i)) sr2 (fun i => Hk (S i)) Hlen2 Hex Herr)
        as [fuel Hf].
      exists (S fuel). cbn [ReadAllWith]. rewrite He, Hsr, Hd.
      cbn [length Nat.eqb andb]. fold sr2. rewrite Hf.
      unfold sr2; cbn [buffer]. rewrite firstn_skipn. reflexivity.
Qed.

Lemma ReadAllWith_live :
  forall n ks sr, (forall i, 0 < ks i) ->
  length (tokens (scanner sr)) = n -> existsData sr = true ->
  forall o r,
    outcome (filter sr) (tokens (scanner sr)) (final_err (scanner sr))
    = (o, r) ->
    exists fuel out,
      ReadAllWith fuel ks (Some sr) = Some (out, reported r)
      /\ is_prefix out (buffer sr ++ o)
      /\ (r = None -> out = buffer sr ++ o)
      /\ (buffer sr = [] ->
          (forall i, fits (filter sr) (ks i) (tokens (scanner sr))) ->
          out = o).
Proof.
  induction n as [n IH] using lt_wf_ind.
  intros ks sr Hk Hn Hlive o r Hout. pose proof (Hk 0) as Hk0.
  destruct (Read_loop (sr, None)) as [sr1 e] eqn:HL.
  destruct (pull (filter sr) (tokens (scanner sr)))
    as [[[app e'] rest] ok] eqn:HP.
  destruct (Read_loop_pull sr Hlive _ _ _ _ _ _ HL HP)
    as (Hb & -> & Hok & Hf & Htrue & Hend).
  pose proof (pull_inv _ _ _ _ _ _ HP) as Hinv.
  rewrite (outcome_pull _ _ (final_err (scanner sr)) _ _ _ _ HP) in Hout.
  destruct e' as [e0|].
  - (* the filter fails *)
    inversion Hout; subst o r.
    assert (Hs : settle sr1 (Some e0) = Some e0).
    { unfold settle. simpl. rewrite andb_false_r. reflexivity. }
    exists 1, []. cbn [ReadAllWith].
    rewrite (@Read_error sr (make (ks 0)) sr1 (Some e0) e0 HL Hs). simpl.
    repeat split; auto using is_prefix_nil. discriminate.
  - destruct ok.
    + (* a record is accepted *)
      destruct (Htrue eq_refl) as [Ht Hfin].
      destruct Hinv as (pre & t & Hts & Hpre & Hft & Hne).
      destruct (outcome (filter sr) rest (final_err (scanner sr)))
        as [o' r'] eqn:Ho'.
      inversion Hout; subst o r.
      assert (Hs : settle sr1 None = None).
      { unfold settle. rewrite Hok. reflexivity. }
      destruct (@Read_deliver sr (make (ks 0)) sr1 None HL Hs)
        as (Hsr & Hd & _ & He).
      rewrite length_make, Hb in *.
      set (sr2 := {| scanner := scanner sr1; filter := filter sr1;
                     buffer := skipn (ks 0) (buffer sr ++ app);
                     existsData := existsData sr1 |}) in *.
      assert (Hlt : length (tokens (scanner sr2)) < n).
      { unfold sr2; cbn [scanner]. rewrite Ht, <- Hn, Hts.
        rewrite length_app. simpl. lia. }
      assert (Ho2 : outcome (filter sr2) (tokens (scanner sr2))
                      (final_err (scanner sr2)) = (o', r')).
      { unfold sr2; cbn [scanner filter]. rewrite Ht, Hf, Hfin. exact Ho'. }
      destruct (IH _ Hlt (fun i => ks (S i)) sr2 (fun i => Hk (S i))
                  eq_refl Hok o' r' Ho2)
        as (fuel & out2 & HR & Hpx & Hclean & Hbig).
      exists (S fuel), (firstn (ks 0) (buffer sr ++ app) ++ out2).
      cbn [ReadAllWith]. rewrite He, Hsr, Hd, HR.
      assert (Hl : (length (buffer sr ++ app) =? 0) = false).
      { apply Nat.eqb_neq. rewrite length_app.
        destruct app; [congruence | simpl; lia]. }
      rewrite Hl. cbn [andb].
      assert (Hcut : buffer sr ++ app ++ o'
                     = firstn (ks 0) (buffer sr ++ app) ++ buffer sr2 ++ o').
      { unfold sr2; cbn [buffer].
        rewrite !app_assoc, firstn_skipn. reflexivity. }
      repeat split.
      * rewrite Hcut. apply is_prefix_app. exact Hpx.
      * intros Hr. rewrite Hcut, (Hclean Hr). reflexivity.
      * intros Hnil Hfit.
        destruct (fits_pull _ _ _ _ _ HP (Hfit 0)) as [Hlen _].
        rewrite Hnil. cbn [List.app].
        rewrite firstn_all2 by exact Hlen.
        f_equal. apply Hbig.
        -- unfold sr2; cbn [buffer]. rewrite Hnil. cbn [List.app].
           apply skipn_all2. exact Hlen.
        -- intros i. unfold sr2; cbn [scanner filter]. rewrite Ht, Hf.
           apply (fits_pull _ _ _ _ _ HP (Hfit (S i))).
    + (* the scanner has stopped *)
      destruct Hinv as (-> & _ & -> & Hall).
      inversion Hout; subst o r. rewrite app_nil_r in *.
      destruct (Hend eq_refl) as [Herr _].
      pose proof (Scanner_Err_end _ _ Herr) as HE.
      destruct (end_of (final_err (scanner sr))) as [e0|] eqn:Eend.
      * assert (Hs : settle sr1 None = Some e0).
        { unfold settle. rewrite Hok. exact HE. }
        exists 1, []. cbn [ReadAllWith].
        rewrite (@Read_error sr (make (ks 0)) sr1 None e0 HL Hs). simpl.
        repeat split; auto using is_prefix_nil. discriminate.
      * destruct (ReadAllWith_exhausted_clean _ ks sr1 Hk (le_n _) Hok HE)
          as [fuel HR].
        exists fuel, (buffer sr).
        rewrite (@ReadAllWith_same fuel ks (Some sr) (Some sr1)).
        2: { intros p. unfold Read.
             rewrite HL, (@Read_loop_exhausted sr1 None Hok). reflexivity. }
        rewrite HR, Hb. repeat split; auto using is_prefix_refl.
Qed.

Lemma ReadAll_exhausted_clean k :
  0 < k ->
  forall sr, existsData sr = false -> Scanner_Err (scanner sr) = None ->
  exists fuel, ReadAll fuel k (Some sr) = Some (buffer sr, io_EOF).
Proof.
  intros Hk sr Hex Herr.
  destruct (ReadAllWith_exhausted_clean _ (fun _ => k) sr (fun _ => Hk)
              (le_n _) Hex Herr) as [fuel HR].
  exists fuel. rewrite <- ReadAllWith_const. exact HR.
Qed.

(** A completed reading is a row of calls without error, then one call
    that returns the error and no bytes. *)
Lemma ReadAll_Reads k fuel :
  forall sr out e, ReadAll fuel k sr = Some (out, e) ->
  exists m rs sr',
    Reads sr (repeat k (S m)) = (rs ++ [([], Some e)], sr')
    /\ length rs = m
    /\ Forall (fun r => snd r = None) rs
    /\ concat (map fst rs) = out.
Proof.
  induction fuel as [|fuel IH]; intros sr out e H; [discriminate|].
  cbn [ReadAll] in H.
  destruct (rr_err (Read sr (make k))) as [e0|] eqn:Ee.
  - inversion H; subst.
    destruct (Read_err_zero _ _ _ Ee) as [_ Hd].
    exists 0, [], (rr_sr (Read sr (make k))). simpl.
    rewrite Ee, Hd. auto.
  - destruct (ReadAll fuel k (rr_sr (Read sr (make k)))) as [[out' e']|] eqn:E;
      [|discriminate].
    inversion H; subst.
    destruct (IH _ _ _ E) as (m & rs & sr' & HR & Hl & Hall & Hc).
    exists (S m), ((rr_data (Read sr (make k)), None) :: rs), sr'.
    cbn [repeat Reads] in *. rewrite HR, Ee. simpl.
    repeat split; auto. rewrite Hc. reflexivity.
Qed.

(** ** Reading a new stream to its end

    Over a steady source whose records are short, the scanner hands over
    the records of the bytes of the source and stops on its error. *)
Lemma ReadAllWith_New rd f ks o r :
  steady rd = true -> forallb short (records (script_bytes rd)) = true ->
  (forall i, 0 < ks i) ->
  outcome f (records (script_bytes rd)) (script_err rd) = (o, r) ->
  exists fuel out,
    ReadAllWith fuel ks (NewStreamReader (Some rd) (Some f))
    = Some (out, reported r)
    /\ is_prefix out o
    /\ (r = None -> out = o)
    /\ ((forall i, fits f (ks i) (records (script_bytes rd))) -> out = o).
Proof.
  intros Hsd Hsh Hk Hout.
  set (sr := {| scanner := NewScanner rd; filter := f;
                buffer := []; existsData := true |}).
  destruct (tokens_records rd Hsd Hsh) as [Ht Hfe].
  destruct (ReadAllWith_live _ ks sr Hk eq_refl eq_refl o r)
    as (fuel & out & HR & Hp & Hc & Hb).
  { unfold sr; cbn [scanner filter]. rewrite Ht, Hfe. exact Hout. }
  exists fuel, out. repeat split; auto.
  intros Hfit. apply Hb; [reflexivity|].
  unfold sr; cbn [scanner filter]. rewrite Ht. exact Hfit.
Qed.

Lemma ReadAll_New rd f k o r :
  steady rd = true -> forallb short (records (script_bytes rd)) = true ->
  0 < k ->
  outcome f (records (script_bytes rd)) (script_err rd) = (o, r) ->
  exists fuel out,
    ReadAll fuel k (NewStreamReader (Some rd) (Some f))
    = Some (out, reported r)
    /\ is_prefix out o
    /\ (r = None -> out = o)
    /\ (fits f k (records (script_bytes rd)) -> out = o).
Proof.
  intros Hsd Hsh Hk Hout.
  destruct (ReadAllWith_New rd f (fun _ => k) o r Hsd Hsh (fun _ => Hk) Hout)
    as (fuel & out & HR & Hp & Hc & Hb).
  exists fuel, out. rewrite <- ReadAllWith_const.
  repeat split; auto.
Qed.

(** A call on a live stream that has only records the filter drops left,
    or none, finds the end of the source: it leaves [existsData] false. *)
Lemma pull_all_dropped f ts :
  Forall (dropped f) ts -> pull f ts = ([], None, [], false).
Proof.
  induction 1 as [|t ts Ht _ IH]; simpl; [reflexivity|].
  unfold dropped in Ht. rewrite Ht. simpl. exact IH.
Qed.

(** ** Claims *)

(** C1, as amended.  Once a call of [Read] has found upstream end-of-data
    (its [Scan] returned false, on a clean end or on an error of the
    source, and [existsData] is false), the stream is terminal for good:
    whatever calls follow, none pulls from upstream (the scanner is left as
    it was), and the bytes they deliver are bytes the carry-over buffer
    already held. *)
Theorem end_of_data_is_terminal ks :
  forall sr, existsData sr = false ->
  exists sr',
    snd (Reads (Some sr) ks) = Some sr'
    /\ scanner sr' = scanner sr /\ existsData sr' = false
    /\ filter sr' = filter sr
    /\ concat (map fst (fst (Reads (Some sr) ks))) ++ buffer sr' = buffer sr.
Proof.
  induction ks as [|k ks IH]; intros sr Hex.
  - exists sr. simpl. auto.
  - cbn [Reads].
    destruct (Read_state sr (make k) sr None (Read_loop_exhausted sr None Hex))
      as (sr1 & Hsr & Hsc & Hex1 & Hf & Hd & _).
    rewrite Hsr. rewrite Hex in Hex1.
    destruct (IH sr1 Hex1) as (sr' & Hs' & Hsc' & Hex' & Hf' & Hd').
    destruct (Reads (Some sr1) ks) as [rs sr''] eqn:ER. simpl in *.
    exists sr'. rewrite <- app_assoc, Hd', Hd.
    repeat split; congruence.
Qed.

Lemma end_of_data_is_terminal_witness :
  existsData sr_ended = false
  /\ exists sr',
       snd (Reads (Some sr_ended) [1; 5; 5]) = Some sr'
       /\ scanner sr' = scanner sr_ended /\ existsData sr' = false
       /\ filter sr' = filter sr_ended
       /\ concat (map fst (fst (Reads (Some sr_ended) [1; 5; 5])))
          ++ buffer sr' = buffer sr_ended.
Proof.
  split; [reflexivity|].
  apply (end_of_data_is_terminal [1; 5; 5] sr_ended). reflexivity.
Defined.

(** C1 as stated fails: the filter fails on the second of three records.
    The second call returns the error of the filter and leaves the third
    record upstream; the third call pulls that record and delivers it. *)
Lemma filter_error_is_not_terminal :
  fst (Reads (NewStreamReader (Some src3) (Some (failOn rec_cd 1)))
             [10; 10; 10; 10])
  = [(rec_ab, None); ([], Some (ErrOther 1)); (rec_ef, None);
     ([], Some io_EOF)]
  /\ option_map (fun sr => tokens (scanner sr))
       (snd (Reads (NewStreamReader (Some src3) (Some (failOn rec_cd 1)))
                   [10; 10]))
     = Some [rec_ef]
  /\ option_map (fun sr => tokens (scanner sr))
       (snd (Reads (NewStreamReader (Some src3) (Some (failOn rec_cd 1)))
                   [10; 10; 10]))
     = Some [].
Proof. repeat split. Qed.

(** C2, as amended.  Over a steady source whose records are short, when
    the filter fails on no record and the source ends on an error other
    than end-of-data, reading with destinations of [k] bytes, [k] at least
    one, ends on that error; the bytes delivered before it are a prefix of
    the accepted records, and all of them when [k] is at least the length
    of each accepted record. *)
Theorem source_error_after_records rd f k e :
  0 < k ->
  steady rd = true -> forallb short (records (script_bytes rd)) = true ->
  Forall (no_error f) (records (script_bytes rd)) ->
  script_err rd = e -> e <> io_EOF ->
  exists fuel out,
    ReadAll fuel k (NewStreamReader (Some rd) (Some f)) = Some (out, e)
    /\ is_prefix out (accepted f (records (script_bytes rd)))
    /\ (fits f k (records (script_bytes rd)) ->
        out = accepted f (records (script_bytes rd))).
Proof.
  intros Hk Hsd Hsh Hall He Hne.
  pose proof (outcome_no_error f _ (script_err rd) Hall) as Hout.
  assert (Hend : end_of (script_err rd) = Some e).
  { rewrite He. destruct e; try reflexivity. congruence. }
  rewrite Hend in Hout.
  destruct (ReadAll_New rd f k _ _ Hsd Hsh Hk Hout)
    as (fuel & out & HR & Hp & _ & Hb).
  exists fuel, out. auto.
Qed.

Lemma source_error_after_records_witness :
  0 < 10
  /\ steady srcErr = true
  /\ forallb short (records (script_bytes srcErr)) = true
  /\ Forall (no_error NopFilter) (records (script_bytes srcErr))
  /\ script_err srcErr = ErrOther 7 /\ ErrOther 7 <> io_EOF
  /\ exists fuel out,
       ReadAll fuel 10 (NewStreamReader (Some srcErr) (Some NopFilter))
       = Some (out, ErrOther 7)
       /\ is_prefix out (accepted NopFilter (records (script_bytes srcErr)))
       /\ (fits NopFilter 10 (records (script_bytes srcErr)) ->
           out = accepted NopFilter (records (script_bytes srcErr))).
Proof.
  assert (H0 : steady srcErr = true) by (vm_compute; reflexivity).
  assert (H1 : forallb short (records (script_bytes srcErr)) = true)
    by (vm_compute; reflexivity).
  assert (H2 : Forall (no_error NopFilter) (records (script_bytes srcErr)))
    by (repeat constructor).
  assert (H3 : ErrOther 7 <> io_EOF) by discriminate.
  split; [lia | split; [exact H0 | split; [exact H1 | split; [exact H2 |
    split; [reflexivity | split; [exact H3|]]]]]].
  apply (source_error_after_records srcErr NopFilter 10 (ErrOther 7));
    [lia | exact H0 | exact H1 | exact H2 | reflexivity | exact H3].
Defined.

(** C2 as stated fails: the source gives one record and then fails.  With
    a destination of one byte the first call delivers the first byte of
    the record, the second call returns the error of the source, and so
    does every later call; the other bytes of the record stay in the
    buffer. *)
Lemma source_error_drops_pending_bytes :
  fst (Reads (NewStreamReader (Some srcErr) None) [1; 1; 1; 1])
  = [(str "a", None); ([], Some (ErrOther 7)); ([], Some (ErrOther 7));
     ([], Some (ErrOther 7))]
  /\ option_map buffer
       (snd (Reads (NewStreamReader (Some srcErr) None) [1; 1; 1; 1]))
     = Some (str "b" ++ [nl]).
Proof. split; reflexivity. Qed.



(** C4, as amended.  Over a steady source whose records are short, for
    every filter and every row of destination sizes [ks] of at least one
    byte, reading to the end of the stream ends on the same error as
    reading with a destination [K] that takes each accepted record whole,
    and the bytes delivered are a prefix of those delivered with [K]; when
    the filter fails on no record and the source ends cleanly the bytes
    are the same and the error is [io.EOF]. *)
Theorem small_and_large_destination rd f ks K :
  steady rd = true -> forallb short (records (script_bytes rd)) = true ->
  (forall i, 0 < ks i) -> 0 < K -> fits f K (records (script_bytes rd)) ->
  exists fuel1 fuel2 out1 out2 e,
    ReadAllWith fuel1 ks (NewStreamReader (Some rd) (Some f))
    = Some (out1, e)
    /\ ReadAll fuel2 K (NewStreamReader (Some rd) (Some f)) = Some (out2, e)
    /\ is_prefix out1 out2
    /\ (Forall (no_error f) (records (script_bytes rd)) ->
        script_err rd = io_EOF ->
        out1 = out2 /\ e = io_EOF).
Proof.
  intros Hsd Hsh Hk HK Hfit.
  destruct (outcome f (records (script_bytes rd)) (script_err rd))
    as [o r] eqn:Hout.
  destruct (ReadAllWith_New rd f ks o r Hsd Hsh Hk Hout)
    as (f1 & out1 & H1 & Hp1 & Hc1 & _).
  destruct (ReadAll_New rd f K o r Hsd Hsh HK Hout)
    as (f2 & out2 & H2 & _ & _ & Hb2).
  specialize (Hb2 Hfit). subst out2.
  exists f1, f2, out1, o, (reported r).
  split; [exact H1 | split; [exact H2 | split; [exact Hp1|]]].
  intros Hall Hclean. rewrite (outcome_no_error f _ _ Hall), Hclean in Hout.
  inversion Hout; subst. auto.
Qed.

Lemma small_and_large_destination_witness :
  steady src3 = true
  /\ forallb short (records (script_bytes src3)) = true
  /\ (forall i, 0 < S (i mod 3)) /\ 0 < 10
  /\ fits dropB_double 10 (records (script_bytes src3))
  /\ Forall (no_error dropB_double) (records (script_bytes src3))
  /\ script_err src3 = io_EOF
  /\ exists fuel1 fuel2 out,
       ReadAllWith fuel1 (fun i => S (i mod 3))
         (NewStreamReader (Some src3) (Some dropB_double))
       = Some (out, io_EOF)
       /\ ReadAll fuel2 10 (NewStreamReader (Some src3) (Some dropB_double))
          = Some (out, io_EOF).
Proof.
  assert (H0 : steady src3 = true) by (vm_compute; reflexivity).
  assert (H1 : forallb short (records (script_bytes src3)) = true)
    by (vm_compute; reflexivity).
  assert (H2 : forall i, 0 < S (i mod 3)) by (intros i; lia).
  assert (H3 : fits dropB_double 10 (records (script_bytes src3))).
  { change (records (script_bytes src3)) with [rec_ab; rec_cd; rec_ef].
    simpl. repeat split; lia. }
  assert (H4 : Forall (no_error dropB_double) (records (script_bytes src3))).
  { change (records (script_bytes src3)) with [rec_ab; rec_cd; rec_ef].
    repeat constructor. }
  split; [exact H0 | split; [exact H1 | split; [exact H2 | split; [lia |
    split; [exact H3 | split; [exact H4 | split; [reflexivity|]]]]]]].
  destruct (small_and_large_destination src3 dropB_double
              (fun i => S (i mod 3)) 10 H0 H1 H2 ltac:(lia) H3)
    as (f1 & f2 & out1 & out2 & e & R1 & R2 & _ & Heq).
  destruct (Heq H4 eq_refl) as [-> ->].
  exists f1, f2, out2. split; [exact R1 | exact R2].
Defined.

(** C4 as stated fails: the filter fails on the second of three records;
    with a destination of one byte the stream gives one byte before the
    error, with a destination of ten bytes it gives the whole first
    record. *)
Lemma small_and_large_destination_differ :
  ReadAll 2 1 (NewStreamReader (Some src3) (Some (failOn rec_cd 1)))
  = Some (str "a", ErrOther 1)
  /\ ReadAll 2 10 (NewStreamReader (Some src3) (Some (failOn rec_cd 1)))
     = Some (rec_ab, ErrOther 1)
  /\ str "a" <> rec_ab.
Proof. repeat split; try reflexivity. discriminate. Qed.

(** C5, as amended.  With the identity filter (given, or put in place of
    an absent filter), for every steady source that ends cleanly and whose
    records are short, and every row of destination sizes of at least one
    byte, reading to the end of the stream gives back the bytes of the
    source one for one, then [io.EOF].  The records the filter is given
    are the source cut after each newline: each keeps its newline, a last
    run without newline is a record as it is, and no record is empty. *)
Theorem identity_filter_round_trip rd f ks :
  f = None \/ f = Some NopFilter ->
  script_err rd = io_EOF ->
  steady rd = true -> forallb short (records (script_bytes rd)) = true ->
  (forall i, 0 < ks i) ->
  (exists fuel,
     ReadAllWith fuel ks (NewStreamReader (Some rd) f)
     = Some (script_bytes rd, io_EOF))
  /\ tokens (NewScanner rd) = records (script_bytes rd)
  /\ concat (records (script_bytes rd)) = script_bytes rd
  /\ Forall (fun t => t <> [] /\ exists body,
                        (t = body ++ [nl] \/ t = body) /\ ~ In nl body)
            (records (script_bytes rd)).
Proof.
  intros Hf Hclean Hsd Hsh Hk.
  assert (HN : NewStreamReader (Some rd) f
               = NewStreamReader (Some rd) (Some NopFilter)).
  { destruct Hf as [-> | ->]; reflexivity. }
  rewrite HN. split; [|split; [|split]].
  - assert (Hout : outcome NopFilter (records (script_bytes rd))
                     (script_err rd)
                   = (script_bytes rd, None)).
    { rewrite outcome_no_error.
      - rewrite Hclean. unfold accepted, NopFilter. simpl.
        rewrite map_id, records_concat. reflexivity.
      - apply Forall_forall. intros t _. reflexivity. }
    destruct (ReadAllWith_New rd NopFilter ks _ _ Hsd Hsh Hk Hout)
      as (fuel & out & HR & _ & Hc & _).
    exists fuel. rewrite HR, (Hc eq_refl). reflexivity.
  - apply (tokens_records rd Hsd Hsh).
  - apply records_concat.
  - apply records_shape.
Qed.

Lemma identity_filter_round_trip_witness :
  script_err src1 = io_EOF /\ steady src1 = true
  /\ forallb short (records (script_bytes src1)) = true
  /\ (forall i, 0 < S (i mod 2))
  /\ exists fuel,
       ReadAllWith fuel (fun i => S (i mod 2))
         (NewStreamReader (Some src1) None)
       = Some (script_bytes src1, io_EOF).
Proof.
  assert (H0 : steady src1 = true) by (vm_compute; reflexivity).
  assert (H1 : forallb short (records (script_bytes src1)) = true)
    by (vm_compute; reflexivity).
  assert (H2 : forall i, 0 < S (i mod 2)) by (intros i; lia).
  split; [reflexivity | split; [exact H0 | split; [exact H1 |
    split; [exact H2|]]]].
  apply (identity_filter_round_trip src1 None (fun i => S (i mod 2)));
    [left; reflexivity | reflexivity | exact H0 | exact H1 | exact H2].
Defined.

(** C5 as stated fails: the input is one record, a line of
    [MaxScanTokenSize] bytes and its newline.  The buffer of the scanner
    fills up before the newline is read, [Scan] returns false with
    [ErrTooLong], and every call of [Read] returns this error and no byte
    of the input. *)
Lemma long_record_is_refused :
  records long_line = [long_line]
  /\ script_bytes (strings_NewReader long_line) = long_line
  /\ script_err (strings_NewReader long_line) = io_EOF
  /\ steady (strings_NewReader long_line) = true
  /\ fst (Reads (NewStreamReader (Some (strings_NewReader long_line)) None)
                [10; 10])
     = [([], Some bufio_ErrTooLong); ([], Some bufio_ErrTooLong)].
Proof. repeat split; vm_compute; reflexivity. Qed.

(** C6, as amended.  Over a steady source whose records are short, when
    the filter returns an error on the K-th record and on none before it,
    reading with destinations of [k] bytes, [k] at least one, until the
    first error is a row of calls without error and then one call that
    returns exactly the error of the filter and no bytes.  The bytes
    delivered are a prefix of the filtered records before the K-th, and
    all of them when [k] is at least the length of each of these; no byte
    of the K-th record or of a later one is among them. *)
Theorem filter_error_on_record rd f k pre tK post e :
  0 < k ->
  steady rd = true -> forallb short (records (script_bytes rd)) = true ->
  records (script_bytes rd) = pre ++ tK :: post ->
  Forall (no_error f) pre -> snd (f tK) = Some e ->
  exists m rs sr',
    Reads (NewStreamReader (Some rd) (Some f)) (repeat k (S m))
    = (rs ++ [([], Some e)], sr')
    /\ length rs = m
    /\ Forall (fun r => snd r = None) rs
    /\ is_prefix (concat (map fst rs)) (accepted f pre)
    /\ (Forall (fun t => length (fst (f t)) <= k) pre ->
        concat (map fst rs) = accepted f pre).
Proof.
  intros Hk Hsd Hsh Hrec Hpre HK.
  pose proof (outcome_error_at f pre tK post (script_err rd) e Hpre HK)
    as Hout.
  rewrite <- Hrec in Hout.
  destruct (ReadAll_New rd f k _ _ Hsd Hsh Hk Hout)
    as (fuel & out & HR & Hp & _ & Hb).
  destruct (ReadAll_Reads k fuel _ _ _ HR)
    as (m & rs & sr' & HRs & Hl & Hn & Hc).
  exists m, rs, sr'. rewrite Hc.
  split; [exact HRs | split; [exact Hl | split; [exact Hn | split]]].
  - exact Hp.
  - intros Hfit. apply Hb. rewrite Hrec.
    apply (fits_before f k pre tK post e Hfit HK).
Qed.

Lemma filter_error_on_record_witness :
  0 < 10
  /\ steady src3 = true
  /\ forallb short (records (script_bytes src3)) = true
  /\ records (script_bytes src3) = [rec_ab] ++ rec_cd :: [rec_ef]
  /\ Forall (no_error (failOn rec_cd 1)) [rec_ab]
  /\ snd (failOn rec_cd 1 rec_cd) = Some (ErrOther 1)
  /\ exists m rs sr',
       Reads (NewStreamReader (Some src3) (Some (failOn rec_cd 1)))
             (repeat 10 (S m))
       = (rs ++ [([], Some (ErrOther 1))], sr')
       /\ length rs = m
       /\ Forall (fun r => snd r = None) rs
       /\ is_prefix (concat (map fst rs)) (accepted (failOn rec_cd 1) [rec_ab])
       /\ (Forall (fun t => length (fst (failOn rec_cd 1 t)) <= 10) [rec_ab] ->
           concat (map fst rs) = accepted (failOn rec_cd 1) [rec_ab]).
Proof.
  assert (Ha : steady src3 = true) by (vm_compute; reflexivity).
  assert (Hb : forallb short (records (script_bytes src3)) = true)
    by (vm_compute; reflexivity).
  assert (H1 : records (script_bytes src3) = [rec_ab] ++ rec_cd :: [rec_ef])
    by reflexivity.
  assert (H2 : Forall (no_error (failOn rec_cd 1)) [rec_ab])
    by (repeat constructor).
  assert (H3 : snd (failOn rec_cd 1 rec_cd) = Some (ErrOther 1))
    by reflexivity.
  split; [lia | split; [exact Ha | split; [exact Hb | split; [exact H1 |
    split; [exact H2 | split; [exact H3|]]]]]].
  apply (filter_error_on_record src3 (failOn rec_cd 1) 10
           [rec_ab] rec_cd [rec_ef] (ErrOther 1));
    [lia | exact Ha | exact Hb | exact H1 | exact H2 | exact H3].
Defined.

(** C6 as stated fails: the filter fails on the second record; with a
    destination of one byte the error comes after one byte of the first
    record, whose other bytes are not delivered before it. *)
Lemma filter_error_before_all_bytes :
  records (script_bytes src_xyz) = [str "xy" ++ [nl]; str "z" ++ [nl]]
  /\ fst (Reads (NewStreamReader (Some src_xyz)
                   (Some (failOn (str "z" ++ [nl]) 2)))
                [1; 1])
     = [(str "x", None); ([], Some (ErrOther 2))]
  /\ str "x" <> accepted (failOn (str "z" ++ [nl]) 2) [str "xy" ++ [nl]].
Proof. repeat split; try reflexivity. discriminate. Qed.

(** C7.  A stream made from an absent source is absent; every call of
    [Read] on it returns no bytes and [ErrNilReader], leaves it absent, and
    [ErrNilReader] is not [io.EOF]. *)
Theorem nil_source_nil_stream f p ks :
  NewStreamReader None f = None
  /\ Read (NewStreamReader None f) p
     = {| rr_sr := None; rr_p := p; rr_n := 0; rr_err := Some ErrNilReader |}
  /\ fst (Reads (NewStreamReader None f) ks)
     = repeat ([], Some ErrNilReader) (length ks)
  /\ snd (Reads (NewStreamReader None f) ks) = None
  /\ ErrNilReader <> io_EOF.
Proof.
  split; [reflexivity | split; [reflexivity|]].
  assert (H : Reads None ks
              = (repeat ([], Some ErrNilReader) (length ks), None)).
  { induction ks as [|k ks IH]; [reflexivity|].
    cbn [Reads Read rr_sr]. rewrite IH. reflexivity. }
  cbn [NewStreamReader]. rewrite H.
  split; [reflexivity | split; [reflexivity | discriminate]].
Qed.




(** C9.  A call of [Read] on a stream that is not absent that returns an
    error returns the count zero, and leaves the destination as it was. *)
Theorem error_means_zero_bytes sr p :
  rr_err (Read (Some sr) p) <> None ->
  rr_n (Read (Some sr) p) = 0 /\ rr_p (Read (Some sr) p) = p.
Proof.
  unfold Read. destruct (Read_loop (sr, None)) as [sr1 e].
  fold (settle sr1 e). destruct (settle sr1 e) as [e0|].
  - intros _. split; reflexivity.
  - unfold Buffer_Read. destruct (buffer sr1) as [|x b].
    + destruct (length p =? 0); intros _; split; reflexivity.
    + simpl. intros H. congruence.
Qed.

Lemma error_means_zero_bytes_witness :
  rr_err (Read (Some sr_empty) (make 4)) <> None
  /\ rr_n (Read (Some sr_empty) (make 4)) = 0
  /\ rr_p (Read (Some sr_empty) (make 4)) = make 4.
Proof.
  assert (H : rr_err (Read (Some sr_empty) (make 4)) <> None)
    by (vm_compute; discriminate).
  split; [exact H|].
  apply (error_means_zero_bytes sr_empty (make 4)). exact H.
Defined.

(** C10, as amended.  A call of [Read] with a destination of length zero
    on a live stream runs the loop as any other call: it takes records
    from upstream, up to and with the first one the filter accepts, which
    is then whole in the carry-over buffer, or on which it fails.  It
    returns zero bytes, and the error of the filter if it failed, a nil
    error if a record was accepted, and, when the scanner has stopped, the
    error it stopped on, nil on a clean end.  Once the scanner has
    stopped, every later call with a destination of length zero returns
    the same; after a clean end this is a nil error even with an empty
    buffer, where a destination that is not empty gets [io.EOF]. *)
Theorem zero_length_read sr app e rest ok :
  existsData sr = true ->
  pull (filter sr) (tokens (scanner sr)) = (app, e, rest, ok) ->
  exists sr',
    Read (Some sr) []
    = {| rr_sr := Some sr'; rr_p := []; rr_n := 0;
         rr_err := match e with
                   | Some e0 => Some e0
                   | None => if ok then None
                             else end_of (final_err (scanner sr))
                   end |}
    /\ buffer sr' = buffer sr ++ app
    /\ existsData sr' = ok
    /\ (ok = true ->
        tokens (scanner sr') = rest
        /\ length rest < length (tokens (scanner sr))
        /\ (e = None -> app <> []))
    /\ (ok = false ->
        Read (Some sr') []
        = {| rr_sr := Some sr'; rr_p := []; rr_n := 0;
             rr_err := end_of (final_err (scanner sr)) |}
        /\ (final_err (scanner sr) = io_EOF -> buffer sr' = [] ->
            forall p, p <> [] ->
            rr_n (Read (Some sr') p) = 0
            /\ rr_err (Read (Some sr') p) = Some io_EOF)).
Proof.
  intros Hlive HP.
  destruct (Read_loop (sr, None)) as [sr1 e1] eqn:HL.
  destruct (Read_loop_pull sr Hlive _ _ _ _ _ _ HL HP)
    as (Hb & -> & Hok & Hf & Htrue & Hend).
  pose proof (pull_inv _ _ _ _ _ _ HP) as Hinv.
  exists sr1.
  assert (Hs : settle sr1 e
               = match e with
                 | Some e0 => Some e0
                 | None => if ok then None
                           else end_of (final_err (scanner sr))
                 end).
  { unfold settle. rewrite Hok. destruct e as [e0|].
    - simpl. rewrite andb_false_r. reflexivity.
    - destruct ok; [reflexivity|]. simpl.
      destruct (Hend eq_refl) as [Herr _].
      apply (Scanner_Err_end _ _ Herr). }
  split; [|split; [exact Hb | split; [exact Hok | split]]].
  - destruct (settle sr1 e) as [e0|] eqn:Es; rewrite <- Hs.
    + apply (Read_error sr [] sr1 e e0 HL Es).
    + apply (Read_zero sr sr1 e HL Es).
  - intros ->. destruct (Htrue eq_refl) as [Ht _].
    destruct Hinv as (pre & t & Hts & _ & Hcase).
    split; [exact Ht | split].
    + rewrite Hts, length_app. simpl. lia.
    + intros ->. tauto.
  - intros ->. destruct Hinv as (_ & -> & _).
    destruct (Hend eq_refl) as [Herr _].
    pose proof (Read_loop_exhausted sr1 None Hok) as HL1.
    assert (Hs1 : settle sr1 None = end_of (final_err (scanner sr))).
    { unfold settle. rewrite Hok. simpl. apply (Scanner_Err_end _ _ Herr). }
    split.
    + destruct (settle sr1 None) as [e0|] eqn:Es; rewrite <- Hs1.
      * apply (Read_error sr1 [] sr1 None e0 HL1 Es).
      * apply (Read_zero sr1 sr1 None HL1 Es).
    + intros Hfin Hnil p Hp. rewrite Hfin in Hs1. simpl in Hs1.
      destruct (Read_deliver sr1 p sr1 None HL1 Hs1) as (_ & _ & Hn & He).
      rewrite Hn, He, Hnil. simpl.
      split; [apply Nat.min_0_r|].
      destruct p; [congruence | reflexivity].
Qed.

Lemma zero_length_read_witness :
  (existsData sr_ab_cd = true
   /\ pull (filter sr_ab_cd) (tokens (scanner sr_ab_cd))
      = (rec_ab, None, [rec_cd], true)
   /\ exists sr',
        Read (Some sr_ab_cd) []
        = {| rr_sr := Some sr'; rr_p := []; rr_n := 0; rr_err := None |}
        /\ buffer sr' = buffer sr_ab_cd ++ rec_ab
        /\ tokens (scanner sr') = [rec_cd]
        /\ existsData sr' = true)
  /\ (existsData sr_empty = true
      /\ pull (filter sr_empty) (tokens (scanner sr_empty))
         = ([], None, [], false)
      /\ final_err (scanner sr_empty) = io_EOF
      /\ exists sr',
           Read (Some sr_empty) []
           = {| rr_sr := Some sr'; rr_p := []; rr_n := 0; rr_err := None |}
           /\ buffer sr' = []
           /\ existsData sr' = false
           /\ Read (Some sr') []
              = {| rr_sr := Some sr'; rr_p := []; rr_n := 0; rr_err := None |}
           /\ rr_err (Read (Some sr') (make 1)) = Some io_EOF).
Proof.
  assert (HP : pull (filter sr_ab_cd) (tokens (scanner sr_ab_cd))
               = (rec_ab, None, [rec_cd], true))
    by (vm_compute; reflexivity).
  assert (HQ : pull (filter sr_empty) (tokens (scanner sr_empty))
               = ([], None, [], false)) by (vm_compute; reflexivity).
  assert (HF : final_err (scanner sr_empty) = io_EOF)
    by (vm_compute; reflexivity).
  split.
  - split; [reflexivity | split; [exact HP|]].
    destruct (zero_length_read sr_ab_cd rec_ab None [rec_cd] true eq_refl HP)
      as (sr' & H1 & H2 & H3 & H4 & _).
    destruct (H4 eq_refl) as (H5 & _).
    exists sr'. auto.
  - split; [reflexivity | split; [exact HQ | split; [exact HF|]]].
    destruct (zero_length_read sr_empty [] None [] false eq_refl HQ)
      as (sr' & H1 & H2 & H3 & _ & H6).
    destruct (H6 eq_refl) as [H7 H8]. rewrite HF in H1, H7. simpl in H1, H7.
    exists sr'. split; [exact H1 | split; [exact H2 | split; [exact H3|]]].
    split; [exact H7|].
    apply (H8 HF H2 (make 1)). discriminate.
Defined.

(** C10 as stated fails: a call with a destination of length zero returns
    the error of the filter when the filter fails on the record it pulls,
    and the error of the source when the source has failed, not a nil
    error. *)
Lemma zero_length_read_returns_error :
  Read (Some sr_fail_ab) []
  = {| rr_sr := rr_sr (Read (Some sr_fail_ab) []); rr_p := []; rr_n := 0;
       rr_err := Some (ErrOther 1) |}
  /\ fst (Reads (NewStreamReader (Some [([], Some (ErrOther 7))]) None)
                [0; 0])
     = [([], Some (ErrOther 7)); ([], Some (ErrOther 7))].
Proof. split; vm_compute; reflexivity. Qed.

(** The same on a stream over an empty source: calls with a destination
    of length zero return a nil error after the end of the source, and a
    call with a destination of one byte returns [io.EOF]. *)
Example empty_destination_after_end :
  fst (Reads (NewStreamReader (Some []) None) [0; 0; 1; 0])
  = [([], None); ([], None); ([], Some io_EOF); ([], None)].
Proof. reflexivity. Qed.

(** ** Further properties of split *)

(** X1.  A token that [split] returns comes with no error; it is the first
    [advance] bytes of the data and is not empty; it is a run of bytes
    other than the newline and then one newline, or, only at the end of
    the input and when the data holds no newline, the whole data. *)
Theorem split_token_shape data atEOF a t e :
  split data atEOF = (a, Some t, e) ->
  e = None /\ a = length t /\ 0 < a /\ data = t ++ skipn a data
  /\ exists body,
       ~ In nl body
       /\ (t = body ++ [nl] \/ (t = body /\ atEOF = true /\ data = t)).
Proof.
  intros H. destruct (split_token _ _ _ _ _ H) as (He & Ht & Ha).
  split; [exact He | split; [|split; [lia | split]]].
  - rewrite Ht, length_firstn. lia.
  - rewrite Ht. symmetry. apply firstn_skipn.
  - unfold split in H.
    destruct (atEOF && (length data =? 0)); [discriminate|].
    destruct (IndexByte data nl) as [i|] eqn:Ei.
    + inversion H; subst. destruct (IndexByte_found _ _ _ Ei) as [Hf Hn].
      exists (firstn i data). split; [exact Hn | left; exact Hf].
    + destruct atEOF; [|discriminate]. inversion H; subst.
      eexists. split; [apply IndexByte_absent; exact Ei | right; auto].
Qed.

Lemma split_token_shape_witness :
  split (str "ab" ++ [nl] ++ str "cd") false
  = (3, Some (str "ab" ++ [nl]), None)
  /\ 3 = length (str "ab" ++ [nl])
  /\ str "ab" ++ [nl] ++ str "cd"
     = (str "ab" ++ [nl]) ++ skipn 3 (str "ab" ++ [nl] ++ str "cd").
Proof.
  assert (H : split (str "ab" ++ [nl] ++ str "cd") false
              = (3, Some (str "ab" ++ [nl]), None)) by reflexivity.
  split; [exact H|].
  destruct (split_token_shape _ _ _ _ _ H) as (_ & H1 & _ & H2 & _).
  split; [exact H1 | exact H2].
Defined.

(** X2.  [split] never returns an error, and it returns no token and the
    advance zero exactly when the data holds no newline and either the
    input has not ended or the data is empty. *)
Theorem split_no_token_iff data atEOF :
  snd (split data atEOF) = None
  /\ (fst (split data atEOF) = (0, None)
      <-> ~ In nl data /\ (atEOF = false \/ data = [])).
Proof.
  unfold split.
  destruct (atEOF && (length data =? 0)) eqn:E0.
  - apply andb_prop in E0. destruct E0 as [-> E0].
    apply Nat.eqb_eq in E0. destruct data; [|discriminate]. simpl.
    split; [reflexivity|]. split; [intros _; split; auto | reflexivity].
  - destruct (IndexByte data nl) as [i|] eqn:Ei.
    + simpl. split; [reflexivity|]. split.
      * intros H. inversion H.
      * intros [Hn _]. apply IndexByte_absent in Hn. congruence.
    + apply IndexByte_absent in Ei. destruct atEOF; simpl.
      * split; [reflexivity|]. split; [discriminate|].
        intros [_ [H|H]]; [discriminate|]. subst data. discriminate.
      * split; [reflexivity|]. split; [auto | reflexivity].
Qed.

(** X3.  A token that [split] finds before the end of the input is the
    token it finds in these bytes followed by any others, at the end of
    the input or not: later bytes never change a record. *)
Theorem split_token_stable data a t e more atEOF' :
  split data false = (a, Some t, e) ->
  split (data ++ more) atEOF' = (a, Some t, None).
Proof.
  intros Hs. unfold split in *. simpl andb in Hs.
  destruct (IndexByte data nl) as [i|] eqn:Ei; [|discriminate].
  inversion Hs; subst. pose proof (IndexByte_lt _ _ _ Ei) as Hlt.
  rewrite (IndexByte_app _ more _ _ Ei).
  assert (E0 : (length (data ++ more) =? 0) = false).
  { apply Nat.eqb_neq. rewrite length_app. lia. }
  rewrite E0, andb_false_r.
  rewrite firstn_app. replace (i + 1 - length data) with 0 by lia.
  simpl firstn at 2. rewrite app_nil_r. reflexivity.
Qed.

Lemma split_token_stable_witness :
  split (str "ab" ++ [nl]) false = (3, Some (str "ab" ++ [nl]), None)
  /\ split ((str "ab" ++ [nl]) ++ str "cd") true
     = (3, Some (str "ab" ++ [nl]), None).
Proof.
  assert (H : split (str "ab" ++ [nl]) false
              = (3, Some (str "ab" ++ [nl]), None)) by reflexivity.
  split; [exact H|].
  apply (split_token_stable _ _ _ _ (str "cd") true H).
Defined.

(** ** Further properties of one call of Read *)

Lemma Buffer_Read_dest b p :
  let '(b', (p', n, e)) := Buffer_Read b p in
  p' = firstn n b ++ skipn n p.
Proof.
  unfold Buffer_Read. destruct b as [|x b].
  - destruct (length p =? 0); reflexivity.
  - unfold copy. reflexivity.
Qed.

(** The whole result of a call that meets no error. *)
Lemma Read_deliver_eq sr p sr1 e :
  Read_loop (sr, None) = (sr1, e) -> settle sr1 e = None ->
  Read (Some sr) p
  = {| rr_sr := Some {| scanner := scanner sr1; filter := filter sr1;
                        buffer := skipn (length p) (buffer sr1);
                        existsData := existsData sr1 |};
       rr_p := firstn (Nat.min (length p) (length (buffer sr1))) (buffer sr1)
               ++ skipn (Nat.min (length p) (length (buffer sr1))) p;
       rr_n := Nat.min (length p) (length (buffer sr1));
       rr_err := if (length (buffer sr1) =? 0) && negb (length p =? 0)
                 then Some io_EOF else None |}.
Proof.
  intros HL Hs. unfold Read. rewrite HL. fold (settle sr1 e). rewrite Hs.
  pose proof (Buffer_Read_spec (buffer sr1) p) as HB.
  pose proof (Buffer_Read_dest (buffer sr1) p) as HD.
  destruct (Buffer_Read (buffer sr1) p) as [b' [[p' n] e']].
  destruct HB as (-> & _ & -> & ->). rewrite HD. reflexivity.
Qed.

(** X4.  A call of [Read], on an absent stream or not, keeps the length of
    the destination, returns a count that is at most this length, and
    leaves the bytes of the destination after the first [n] as they
    were. *)
Theorem Read_writes_first_n_bytes sr p :
  length (rr_p (Read sr p)) = length p
  /\ rr_n (Read sr p) <= length p
  /\ skipn (rr_n (Read sr p)) (rr_p (Read sr p))
     = skipn (rr_n (Read sr p)) p.
Proof.
  destruct sr as [sr|]; [|simpl; repeat split; lia].
  destruct (Read_loop (sr, None)) as [sr1 e] eqn:HL.
  destruct (settle sr1 e) as [e0|] eqn:Hs.
  - rewrite (Read_error sr p sr1 e e0 HL Hs). simpl. repeat split; lia.
  - rewrite (Read_deliver_eq sr p sr1 e HL Hs). cbn [rr_p rr_n].
    set (n := Nat.min (length p) (length (buffer sr1))).
    assert (Hl : length (firstn n (buffer sr1)) = n).
    { rewrite length_firstn. unfold n. lia. }
    split; [|split].
    + rewrite length_app, Hl, length_skipn. unfold n. lia.
    + unfold n. lia.
    + rewrite skipn_app, Hl, Nat.sub_diag.
      rewrite skipn_all2 by lia. reflexivity.
Qed.

(** X5.  A call of [Read] with a destination that is not empty never
    returns zero bytes and a nil error: it delivers at least one byte or
    returns an error. *)
Theorem Read_makes_progress sr p :
  p <> [] ->
  0 < rr_n (Read (Some sr) p) \/ rr_err (Read (Some sr) p) <> None.
Proof.
  intros Hp.
  destruct (Read_loop (sr, None)) as [sr1 e] eqn:HL.
  destruct (settle sr1 e) as [e0|] eqn:Hs.
  - rewrite (Read_error sr p sr1 e e0 HL Hs). right. discriminate.
  - rewrite (Read_deliver_eq sr p sr1 e HL Hs). cbn [rr_n rr_err].
    destruct p as [|c p]; [congruence|].
    destruct (buffer sr1) as [|x b].
    + right. discriminate.
    + left. simpl. lia.
Qed.

Lemma Read_makes_progress_witness :
  make 1 <> []
  /\ (0 < rr_n (Read (Some sr_ab_cd) (make 1))
      \/ rr_err (Read (Some sr_ab_cd) (make 1)) <> None).
Proof.
  assert (H : make 1 <> []) by discriminate.
  split; [exact H|]. apply (Read_makes_progress sr_ab_cd (make 1) H).
Defined.

(** X6.  An error that a call of [Read] returns on a stream that is not
    absent is [io.EOF], or the error the filter returns on one of the
    records still to come, or the error the scanner stops on or has
    stopped on; and the error a scanner stops on is the one it held, an
    error of its source, [bufio.ErrTooLong] or [io.ErrNoProgress].
    [Read] makes up no error of its own. *)
Theorem Read_error_provenance sr p e :
  rr_err (Read (Some sr) p) = Some e ->
  e = io_EOF
  \/ (exists t, In t (tokens (scanner sr)) /\ snd (filter sr t) = Some e)
  \/ (existsData sr = true /\ final_err (scanner sr) = e
      /\ (sc_err (scanner sr) = Some e
          \/ In e (script_errs (sc_r (scanner sr)))
          \/ e = bufio_ErrTooLong \/ e = io_ErrNoProgress))
  \/ (existsData sr = false /\ Scanner_Err (scanner sr) = Some e).
Proof.
  destruct (Read_loop (sr, None)) as [sr1 e1] eqn:HL.
  destruct (settle sr1 e1) as [e0|] eqn:Hs.
  - rewrite (Read_error sr p sr1 e1 e0 HL Hs). cbn [rr_err].
    intros He; inversion He; subst e0; clear He.
    destruct (existsData sr) eqn:Hlive.
    + destruct (pull (filter sr) (tokens (scanner sr)))
        as [[[app e'] rest] ok] eqn:HP.
      destruct (Read_loop_pull sr Hlive _ _ _ _ _ _ HL HP)
        as (_ & -> & Hok & _ & _ & Hend).
      pose proof (pull_inv _ _ _ _ _ _ HP) as Hinv.
      unfold settle in Hs. rewrite Hok in Hs.
      destruct ok.
      * simpl in Hs. subst e'.
        destruct Hinv as (pre & t & Hts & _ & _ & Ht).
        right; left. exists t. rewrite Hts.
        split; [apply in_or_app; right; left; reflexivity | exact Ht].
      * destruct Hinv as (_ & -> & _). simpl in Hs.
        destruct (Hend eq_refl) as [Herr _].
        rewrite (Scanner_Err_end _ _ Herr) in Hs.
        assert (Hfe : final_err (scanner sr) = e).
        { destruct (final_err (scanner sr)); simpl in Hs; congruence. }
        pose proof (final_err_explained (scanner sr)) as Hx.
        rewrite Hfe in Hx.
        destruct Hx as [Hx|Hx]; [left; exact Hx|].
        right; right; left. auto.
    + rewrite (Read_loop_exhausted sr None Hlive) in HL.
      inversion HL; subst. unfold settle in Hs. rewrite Hlive in Hs.
      simpl in Hs. right; right; right. auto.
  - rewrite (Read_deliver_eq sr p sr1 e1 HL Hs). cbn [rr_err].
    destruct ((length (buffer sr1) =? 0) && negb (length p =? 0));
      [|discriminate].
    intros He; inversion He. left. reflexivity.
Qed.

(** A stream over a source that fails after one record, on which the
    filter drops every record. *)
Definition sr_drops_then_fails : StreamReader :=
  {| scanner := NewScanner srcErr; filter := dropAll;
     buffer := []; existsData := true |}.

Lemma Read_error_provenance_witness :
  rr_err (Read (Some sr_drops_then_fails) (make 4)) = Some (ErrOther 7)
  /\ (ErrOther 7 = io_EOF
      \/ (exists t, In t (tokens (scanner sr_drops_then_fails))
                    /\ snd (filter sr_drops_then_fails t)
                       = Some (ErrOther 7))
      \/ (existsData sr_drops_then_fails = true
          /\ final_err (scanner sr_drops_then_fails) = ErrOther 7
          /\ (sc_err (scanner sr_drops_then_fails) = Some (ErrOther 7)
              \/ In (ErrOther 7)
                   (script_errs (sc_r (scanner sr_drops_then_fails)))
              \/ ErrOther 7 = bufio_ErrTooLong
              \/ ErrOther 7 = io_ErrNoProgress))
      \/ (existsData sr_drops_then_fails = false
          /\ Scanner_Err (scanner sr_drops_then_fails)
             = Some (ErrOther 7))).
Proof.
  assert (H : rr_err (Read (Some sr_drops_then_fails) (make 4))
              = Some (ErrOther 7)) by (vm_compute; reflexivity).
  split; [exact H|].
  apply (Read_error_provenance sr_drops_then_fails (make 4) (ErrOther 7) H).
Defined.

Lemma pull_error_at f pre t rest e :
  Forall (dropped f) pre -> snd (f t) = Some e ->
  pull f (pre ++ t :: rest) = ([], Some e, rest, true).
Proof.
  intros Hpre Ht. induction Hpre as [|x pre Hx _ IH]; simpl.
  - destruct (f t) as [y e0]; simpl in Ht; subst e0. reflexivity.
  - unfold dropped in Hx. rewrite Hx. simpl. exact IH.
Qed.

(** X7.  When the filter returns an error on a record, after records it
    dropped, the call returns this error and no bytes and leaves the
    destination and the carry-over buffer as they were; the records up to
    and with the failing one are used up (text returned with the error is
    thrown away), the stream stays live, and the next call goes on with
    the record after the failing one. *)
Theorem filter_error_skips_record sr p pre t rest e :
  existsData sr = true ->
  tokens (scanner sr) = pre ++ t :: rest ->
  Forall (dropped (filter sr)) pre -> snd (filter sr t) = Some e ->
  exists sr',
    Read (Some sr) p
    = {| rr_sr := Some sr'; rr_p := p; rr_n := 0; rr_err := Some e |}
    /\ buffer sr' = buffer sr /\ existsData sr' = true
    /\ filter sr' = filter sr /\ tokens (scanner sr') = rest.
Proof.
  intros Hlive Hts Hpre Ht.
  destruct (Read_loop (sr, None)) as [sr1 e1] eqn:HL.
  pose proof (pull_error_at (filter sr) pre t rest e Hpre Ht) as HP.
  rewrite <- Hts in HP.
  destruct (Read_loop_pull sr Hlive _ _ _ _ _ _ HL HP)
    as (Hb & -> & Hok & Hf & Htrue & _).
  destruct (Htrue eq_refl) as [Hrest _].
  assert (Hs : settle sr1 (Some e) = Some e).
  { unfold settle. simpl. rewrite andb_false_r. reflexivity. }
  exists sr1. rewrite (Read_error sr p sr1 (Some e) e HL Hs).
  rewrite app_nil_r in Hb. auto.
Qed.

Lemma filter_error_skips_record_witness :
  existsData sr_fail_ab = true
  /\ tokens (scanner sr_fail_ab) = [] ++ rec_ab :: [rec_cd; rec_ef]
  /\ snd (filter sr_fail_ab rec_ab) = Some (ErrOther 1)
  /\ exists sr',
       Read (Some sr_fail_ab) (make 4)
       = {| rr_sr := Some sr'; rr_p := make 4; rr_n := 0;
            rr_err := Some (ErrOther 1) |}
       /\ buffer sr' = buffer sr_fail_ab /\ existsData sr' = true
       /\ filter sr' = filter sr_fail_ab
       /\ tokens (scanner sr') = [rec_cd; rec_ef].
Proof.
  assert (H1 : tokens (scanner sr_fail_ab) = [] ++ rec_ab :: [rec_cd; rec_ef])
    by reflexivity.
  assert (H2 : snd (filter sr_fail_ab rec_ab) = Some (ErrOther 1))
    by reflexivity.
  split; [reflexivity | split; [exact H1 | split; [exact H2|]]].
  apply (filter_error_skips_record sr_fail_ab (make 4) [] rec_ab
           [rec_cd; rec_ef] (ErrOther 1) eq_refl H1 (Forall_nil _) H2).
Defined.

(** X8.  When the filter drops every record still to come and the
    scanner stops without an error, one call with a destination that is
    not empty on a stream with an empty buffer goes through all these
    records and returns zero bytes and [io.EOF]; the stream is then
    exhausted. *)
Theorem dropped_records_give_EOF sr p :
  existsData sr = true -> buffer sr = [] ->
  Forall (dropped (filter sr)) (tokens (scanner sr)) ->
  final_err (scanner sr) = io_EOF -> p <> [] ->
  exists sr',
    Read (Some sr) p
    = {| rr_sr := Some sr'; rr_p := p; rr_n := 0; rr_err := Some io_EOF |}
    /\ existsData sr' = false /\ tokens (scanner sr') = []
    /\ buffer sr' = [].
Proof.
  intros Hlive Hbuf Hall Hfin Hp.
  destruct (Read_loop (sr, None)) as [sr1 e1] eqn:HL.
  destruct (Read_loop_pull sr Hlive _ _ _ _ _ _ HL (pull_all_dropped _ _ Hall))
    as (Hb & -> & Hok & Hf & _ & Hend).
  destruct (Hend eq_refl) as [Herr Htok].
  assert (Hrest : tokens (scanner sr1) = []).
  { apply Htok. rewrite Hfin. discriminate. }
  rewrite Hbuf in Hb. simpl in Hb.
  assert (Hs : settle sr1 None = None).
  { unfold settle. rewrite Hok. simpl.
    rewrite (Scanner_Err_end _ _ Herr), Hfin. reflexivity. }
  rewrite (Read_deliver_eq sr p sr1 None HL Hs), Hb.
  destruct p as [|c p]; [congruence|]. simpl.
  eexists. split; [reflexivity|]. simpl. auto.
Qed.

Definition sr_drop_all : StreamReader :=
  {| scanner := NewScanner src3; filter := dropAll;
     buffer := []; existsData := true |}.

Lemma dropped_records_give_EOF_witness :
  existsData sr_drop_all = true /\ buffer sr_drop_all = []
  /\ Forall (dropped (filter sr_drop_all)) (tokens (scanner sr_drop_all))
  /\ final_err (scanner sr_drop_all) = io_EOF /\ make 4 <> []
  /\ exists sr',
       Read (Some sr_drop_all) (make 4)
       = {| rr_sr := Some sr'; rr_p := make 4; rr_n := 0;
            rr_err := Some io_EOF |}
       /\ existsData sr' = false /\ tokens (scanner sr') = []
       /\ buffer sr' = [].
Proof.
  assert (H1 : Forall (dropped (filter sr_drop_all))
                 (tokens (scanner sr_drop_all))).
  { change (tokens (scanner sr_drop_all)) with [rec_ab; rec_cd; rec_ef].
    repeat constructor. }
  assert (H2 : make 4 <> []) by discriminate.
  split; [reflexivity | split; [reflexivity | split; [exact H1 |
    split; [reflexivity | split; [exact H2|]]]]].
  apply (dropped_records_give_EOF sr_drop_all (make 4)
           eq_refl eq_refl H1 eq_refl H2).
Defined.

(** ** Further properties of rows of calls *)

Lemma Reads_source_error e :
  forall ks sr,
    existsData sr = false -> Scanner_Err (scanner sr) = Some e ->
    Reads (Some sr) ks = (repeat ([], Some e) (length ks), Some sr).
Proof.
  induction ks as [|k ks IH]; intros sr Hex He; [reflexivity|].
  assert (Hs : settle sr None = Some e).
  { unfold settle. rewrite Hex. exact He. }
  cbn [Reads].
  rewrite (Read_error sr (make k) sr None e
             (Read_loop_exhausted sr None Hex) Hs).
  cbn [rr_sr rr_err]. rewrite (IH sr Hex He). reflexivity.
Qed.

(** X9.  Once a call on a live stream finds that the scanner has stopped
    on an error (every record still to come is dropped, and the scanner
    stops on an error other than end-of-data: a failure of the source, a
    record too long for its buffer, a source that makes no progress), that
    call and every later call return this error and no bytes, and the
    carry-over buffer keeps for good the bytes it held. *)
Theorem source_error_is_sticky sr e ks :
  existsData sr = true ->
  Forall (dropped (filter sr)) (tokens (scanner sr)) ->
  final_err (scanner sr) = e -> e <> io_EOF ->
  fst (Reads (Some sr) ks) = repeat ([], Some e) (length ks)
  /\ option_map buffer (snd (Reads (Some sr) ks)) = Some (buffer sr).
Proof.
  intros Hlive Hall Hfin Hne.
  destruct ks as [|k ks]; [split; reflexivity|].
  destruct (Read_loop (sr, None)) as [sr1 e1] eqn:HL.
  destruct (Read_loop_pull sr Hlive _ _ _ _ _ _ HL (pull_all_dropped _ _ Hall))
    as (Hb & -> & Hok & _ & _ & Hend).
  destruct (Hend eq_refl) as [Herr _].
  rewrite app_nil_r in Hb.
  assert (HE : Scanner_Err (scanner sr1) = Some e).
  { rewrite (Scanner_Err_end _ _ Herr), Hfin.
    destruct e; try reflexivity. congruence. }
  assert (Hs : settle sr1 None = Some e).
  { unfold settle. rewrite Hok. exact HE. }
  cbn [Reads]. rewrite (Read_error sr (make k) sr1 None e HL Hs).
  cbn [rr_sr rr_err]. rewrite (Reads_source_error e ks sr1 Hok HE).
  simpl. rewrite Hb. auto.
Qed.

Definition sr_failed_source : StreamReader :=
  {| scanner := NewScanner [([], Some (ErrOther 7))]; filter := NopFilter;
     buffer := str "b" ++ [nl]; existsData := true |}.

Lemma source_error_is_sticky_witness :
  existsData sr_failed_source = true
  /\ final_err (scanner sr_failed_source) = ErrOther 7
  /\ ErrOther 7 <> io_EOF
  /\ fst (Reads (Some sr_failed_source) [1; 5; 0])
     = repeat ([], Some (ErrOther 7)) 3
  /\ option_map buffer (snd (Reads (Some sr_failed_source) [1; 5; 0]))
     = Some (buffer sr_failed_source).
Proof.
  assert (H : ErrOther 7 <> io_EOF) by discriminate.
  assert (HF : final_err (scanner sr_failed_source) = ErrOther 7)
    by (vm_compute; reflexivity).
  split; [reflexivity | split; [exact HF | split; [exact H|]]].
  apply (source_error_is_sticky sr_failed_source (ErrOther 7) [1; 5; 0]
           eq_refl (Forall_nil _) HF H).
Defined.

(** The same, for the proofs below. *)
Lemma Reads_stopped sr e ks :
  existsData sr = true ->
  Forall (dropped (filter sr)) (tokens (scanner sr)) ->
  final_err (scanner sr) = e -> e <> io_EOF ->
  fst (Reads (Some sr) ks) = repeat ([], Some e) (length ks).
Proof.
  intros Hlive Hall Hfin Hne.
  destruct ks as [|k ks]; [reflexivity|].
  destruct (Read_loop (sr, None)) as [sr1 e1] eqn:HL.
  destruct (Read_loop_pull sr Hlive _ _ _ _ _ _ HL (pull_all_dropped _ _ Hall))
    as (_ & -> & Hok & _ & _ & Hend).
  destruct (Hend eq_refl) as [Herr _].
  assert (HE : Scanner_Err (scanner sr1) = Some e).
  { rewrite (Scanner_Err_end _ _ Herr), Hfin.
    destruct e; try reflexivity. congruence. }
  assert (Hs : settle sr1 None = Some e).
  { unfold settle. rewrite Hok. exact HE. }
  cbn [Reads]. rewrite (Read_error sr (make k) sr1 None e HL Hs).
  cbn [rr_sr rr_err]. rewrite (Reads_source_error e ks sr1 Hok HE).
  reflexivity.
Qed.

Lemma Reads_first_scan_fails rd f e ks s' :
  Scan (NewScanner rd) = (false, s') -> sc_err s' = Some e -> e <> io_EOF ->
  fst (Reads (NewStreamReader (Some rd) f) ks)
  = repeat ([], Some e) (length ks).
Proof.
  intros Hs He Hne. cbn [NewStreamReader].
  apply Reads_stopped; cbn [existsData scanner filter].
  - reflexivity.
  - rewrite tokens_eq, Hs. constructor.
  - pose proof (final_err_false _ _ Hs) as Hf. congruence.
  - exact Hne.
Qed.

(** X20.  A record too long for the scanner is never delivered: when the
    bytes of a steady source begin with [MaxScanTokenSize] bytes or more
    that hold no newline, and are more than [MaxScanTokenSize] in all,
    every call of [Read] on a new stream over it, whatever the filter and
    the destinations, returns [bufio.ErrTooLong] and no bytes. *)
Theorem long_record_gives_ErrTooLong rd f body rest ks :
  steady rd = true -> script_bytes rd = body ++ rest ->
  IndexByte body nl = None -> MaxScanTokenSize <= length body ->
  MaxScanTokenSize < length (body ++ rest) ->
  fst (Reads (NewStreamReader (Some rd) f) ks)
  = repeat ([], Some bufio_ErrTooLong) (length ks).
Proof.
  intros Hsd Hb Hnl Hlen Hmore.
  destruct (Scan_too_long body rest (NewScanner rd) Hnl Hlen Hmore)
    as (s' & Hs & He); try reflexivity; try exact Hsd.
  - simpl. lia.
  - exact Hb.
  - apply (Reads_first_scan_fails rd f _ ks s' Hs He). discriminate.
Qed.

Lemma long_record_gives_ErrTooLong_witness :
  steady (strings_NewReader long_line) = true
  /\ IndexByte (repeat "a"%char MaxScanTokenSize) nl = None
  /\ fst (Reads (NewStreamReader (Some (strings_NewReader long_line))
                   (Some NopFilter)) [1; 4000])
     = repeat ([], Some bufio_ErrTooLong) 2.
Proof.
  assert (H1 : steady (strings_NewReader long_line) = true)
    by (vm_compute; reflexivity).
  assert (H3 : IndexByte (repeat "a"%char MaxScanTokenSize) nl = None)
    by (vm_compute; reflexivity).
  split; [exact H1 | split; [exact H3|]].
  apply (long_record_gives_ErrTooLong (strings_NewReader long_line)
           (Some NopFilter) (repeat "a"%char MaxScanTokenSize) [nl]
           [1; 4000] H1 (script_bytes_strings long_line) H3).
  - rewrite repeat_length. lia.
  - rewrite length_app, repeat_length. cbn [length]. lia.
Defined.

(** X21.  A source that makes no progress ends the stream: when the
    source begins with more than [maxConsecutiveEmptyReads] calls that
    return no bytes and no error, every call of [Read] on a new stream
    over it, whatever the filter and the destinations, returns
    [io.ErrNoProgress] and no bytes, and the bytes the source would have
    given after that are never read. *)
Theorem stalled_source_gives_ErrNoProgress rd f ks :
  maxConsecutiveEmptyReads < stalls rd ->
  fst (Reads (NewStreamReader (Some rd) f) ks)
  = repeat ([], Some io_ErrNoProgress) (length ks).
Proof.
  intros Hst.
  destruct (Scan_no_progress rd Hst) as (s' & Hs & He).
  apply (Reads_first_scan_fails rd f _ ks s' Hs He). discriminate.
Qed.

Lemma stalled_source_gives_ErrNoProgress_witness :
  maxConsecutiveEmptyReads < stalls src_stalled
  /\ fst (Reads (NewStreamReader (Some src_stalled) None) [5; 5; 0])
     = repeat ([], Some io_ErrNoProgress) 3.
Proof.
  assert (H : maxConsecutiveEmptyReads < stalls src_stalled)
    by (apply Nat.ltb_lt; vm_compute; reflexivity).
  split; [exact H|].
  apply (stalled_source_gives_ErrNoProgress src_stalled None [5; 5; 0] H).
Defined.

(** X10.  Once the source has ended cleanly, reading on with destinations
    of [k] bytes, [k] at least one, delivers all the bytes the carry-over
    buffer holds, in order, and then [io.EOF]: a clean end loses no
    accepted byte. *)
Theorem clean_end_drains_buffer sr k :
  existsData sr = false -> Scanner_Err (scanner sr) = None -> 0 < k ->
  exists fuel, ReadAll fuel k (Some sr) = Some (buffer sr, io_EOF).
Proof.
  intros Hex He Hk.
  exact (ReadAll_exhausted_clean k Hk sr Hex He).
Qed.

Lemma clean_end_drains_buffer_witness :
  existsData sr_ended = false /\ Scanner_Err (scanner sr_ended) = None
  /\ 0 < 2
  /\ exists fuel,
       ReadAll fuel 2 (Some sr_ended) = Some (buffer sr_ended, io_EOF).
Proof.
  split; [reflexivity | split; [reflexivity | split; [lia|]]].
  apply (clean_end_drains_buffer sr_ended 2 eq_refl eq_refl). lia.
Defined.

Lemma pull_no_error f ts app e rest ok :
  Forall (no_error f) ts -> pull f ts = (app, e, rest, ok) ->
  e = None /\ Forall (no_error f) rest.
Proof.
  intros Hall. revert app e rest ok.
  induction Hall as [|t ts Ht Hts IH]; simpl; intros app e rest ok.
  - intros H; inversion H; subst. auto.
  - unfold no_error in Ht. destruct (f t) as [lineStr e0]. simpl in Ht.
    subst e0. destruct (negb (length lineStr =? 0)).
    + intros H; inversion H; subst. auto.
    + apply IH.
Qed.

(** A stream on which a call with a destination of length zero returns a
    nil error: live with no failure of the filter to come and a source
    that ends cleanly, or ended cleanly. *)
Definition quiet (sr : StreamReader) : Prop :=
  if existsData sr
  then Forall (no_error (filter sr)) (tokens (scanner sr))
       /\ final_err (scanner sr) = io_EOF
  else Scanner_Err (scanner sr) = None.

Lemma Read_zero_quiet sr :
  quiet sr ->
  exists sr', Read (Some sr) (make 0)
              = {| rr_sr := Some sr'; rr_p := []; rr_n := 0; rr_err := None |}
              /\ quiet sr'.
Proof.
  unfold quiet at 1. intros Hq.
  destruct (Read_loop (sr, None)) as [sr1 e1] eqn:HL.
  destruct (existsData sr) eqn:Hlive.
  - destruct Hq as [Hall Hfin].
    destruct (pull (filter sr) (tokens (scanner sr)))
      as [[[app e'] rest] ok] eqn:HP.
    destruct (Read_loop_pull sr Hlive _ _ _ _ _ _ HL HP)
      as (_ & -> & Hok & Hf & Htrue & Hend).
    destruct (pull_no_error _ _ _ _ _ _ Hall HP) as [-> Hr].
    assert (Hs : settle sr1 None = None).
    { unfold settle. rewrite Hok. destruct ok; [reflexivity|]. simpl.
      destruct (Hend eq_refl) as [Herr _].
      rewrite (Scanner_Err_end _ _ Herr), Hfin. reflexivity. }
    exists sr1. split; [apply (Read_zero sr sr1 None HL Hs)|].
    unfold quiet. rewrite Hok. destruct ok.
    + destruct (Htrue eq_refl) as [Hrest Hfe].
      rewrite Hf, Hrest, Hfe. auto.
    + destruct (Hend eq_refl) as [Herr _].
      rewrite (Scanner_Err_end _ _ Herr), Hfin. reflexivity.
  - rewrite (Read_loop_exhausted sr None Hlive) in HL.
    inversion HL; subst.
    assert (Hs : settle sr1 None = None).
    { unfold settle. rewrite Hlive. exact Hq. }
    exists sr1. split.
    + apply (Read_zero sr1 sr1 None (Read_loop_exhausted sr1 None Hlive) Hs).
    + unfold quiet. rewrite Hlive. exact Hq.
Qed.

(** X12.  Reading to the end with destinations of length zero never comes
    to an end on a stream over a steady source that ends cleanly, whose
    records are short and on none of which the filter fails: every call
    returns zero bytes and a nil error, also after the end of the source,
    so no number of calls is enough. *)
Theorem empty_destination_never_ends rd f fuel :
  steady rd = true -> forallb short (records (script_bytes rd)) = true ->
  Forall (no_error f) (records (script_bytes rd)) ->
  script_err rd = io_EOF ->
  ReadAll fuel 0 (NewStreamReader (Some rd) (Some f)) = None.
Proof.
  intros Hsd Hsh Hall Hfin.
  assert (Hq : quiet {| scanner := NewScanner rd; filter := f;
                        buffer := []; existsData := true |}).
  { unfold quiet. cbn [existsData filter scanner].
    destruct (tokens_records rd Hsd Hsh) as [-> ->]. auto. }
  cbn [NewStreamReader].
  generalize dependent {| scanner := NewScanner rd; filter := f;
                          buffer := []; existsData := true |}.
  induction fuel as [|fuel IH]; intros sr Hq; [reflexivity|].
  cbn [ReadAll]. destruct (Read_zero_quiet sr Hq) as (sr' & HR & Hq').
  rewrite HR. cbn [rr_err rr_sr]. rewrite (IH sr' Hq'). reflexivity.
Qed.

Lemma empty_destination_never_ends_witness :
  steady src1 = true
  /\ forallb short (records (script_bytes src1)) = true
  /\ Forall (no_error NopFilter) (records (script_bytes src1))
  /\ script_err src1 = io_EOF
  /\ ReadAll 50 0 (NewStreamReader (Some src1) (Some NopFilter)) = None.
Proof.
  assert (H0 : steady src1 = true) by (vm_compute; reflexivity).
  assert (H1 : forallb short (records (script_bytes src1)) = true)
    by (vm_compute; reflexivity).
  assert (H : Forall (no_error NopFilter) (records (script_bytes src1)))
    by (repeat constructor).
  split; [exact H0 | split; [exact H1 | split; [exact H |
    split; [reflexivity|]]]].
  apply (empty_destination_never_ends src1 NopFilter 50 H0 H1 H eq_refl).
Defined.

(** ** The chunks of the source do not matter *)

(** Two streams that no row of calls can tell apart: the same filter,
    buffer and flag, and scanners that will give the same records and end
    on the same error. *)
Definition alike (a b : StreamReader) : Prop :=
  filter a = filter b /\ buffer a = buffer b
  /\ existsData a = existsData b
  /\ (existsData a = true ->
      tokens (scanner a) = tokens (scanner b)
      /\ final_err (scanner a) = final_err (scanner b))
  /\ (existsData a = false ->
      Scanner_Err (scanner a) = Scanner_Err (scanner b)).

Lemma alike_loop a b a1 ea b1 eb :
  alike a b ->
  Read_loop (a, None) = (a1, ea) -> Read_loop (b, None) = (b1, eb) ->
  alike a1 b1 /\ ea = eb.
Proof.
  intros (Hf & Hb & Hx & Hlive & Hdead) HLa HLb.
  destruct (existsData a) eqn:Ea; symmetry in Hx.
  - destruct (Hlive eq_refl) as [Ht Hfe].
    destruct (pull (filter a) (tokens (scanner a)))
      as [[[app e'] rest] ok] eqn:HP.
    assert (HPb : pull (filter b) (tokens (scanner b)) = (app, e', rest, ok)).
    { rewrite <- Hf, <- Ht. exact HP. }
    destruct (Read_loop_pull a Ea _ _ _ _ _ _ HLa HP)
      as (Hba & -> & Hoka & Hfa & Htruea & Henda).
    destruct (Read_loop_pull b Hx _ _ _ _ _ _ HLb HPb)
      as (Hbb & -> & Hokb & Hfb & Htrueb & Hendb).
    split; [|reflexivity]. unfold alike.
    rewrite Hba, Hbb, Hfa, Hfb, Hoka, Hokb, Hb, Hf.
    split; [reflexivity | split; [reflexivity | split; [reflexivity|]]].
    split.
    + intros ->. destruct (Htruea eq_refl) as [-> ->].
      destruct (Htrueb eq_refl) as [-> ->]. auto.
    + intros ->. destruct (Henda eq_refl) as [Ha _].
      destruct (Hendb eq_refl) as [Hb' _].
      rewrite (Scanner_Err_end _ _ Ha), (Scanner_Err_end _ _ Hb'), Hfe.
      reflexivity.
  - rewrite (Read_loop_exhausted a None Ea) in HLa.
    rewrite (Read_loop_exhausted b None Hx) in HLb.
    inversion HLa; inversion HLb; subst.
    split; [|reflexivity]. unfold alike. rewrite Ea, Hx. auto.
Qed.

Lemma alike_settle a b e : alike a b -> settle a e = settle b e.
Proof.
  intros (_ & _ & Hx & _ & Hdead). unfold settle. rewrite <- Hx.
  destruct (existsData a); [reflexivity|]. simpl.
  destruct (isNone e); [apply Hdead; reflexivity | reflexivity].
Qed.

Lemma alike_Read a b p :
  alike a b ->
  rr_p (Read (Some a) p) = rr_p (Read (Some b) p)
  /\ rr_n (Read (Some a) p) = rr_n (Read (Some b) p)
  /\ rr_err (Read (Some a) p) = rr_err (Read (Some b) p)
  /\ exists a' b',
       rr_sr (Read (Some a) p) = Some a'
       /\ rr_sr (Read (Some b) p) = Some b' /\ alike a' b'.
Proof.
  intros Hab.
  destruct (Read_loop (a, None)) as [a1 ea] eqn:HLa.
  destruct (Read_loop (b, None)) as [b1 eb] eqn:HLb.
  destruct (alike_loop a b a1 ea b1 eb Hab HLa HLb) as [H1 <-].
  pose proof (alike_settle a1 b1 ea H1) as Hs.
  destruct (settle a1 ea) as [e0|] eqn:Hsa; symmetry in Hs.
  - rewrite (Read_error a p a1 ea e0 HLa Hsa).
    rewrite (Read_error b p b1 ea e0 HLb Hs). simpl.
    repeat split; auto. exists a1, b1. auto.
  - rewrite (Read_deliver_eq a p a1 ea HLa Hsa).
    rewrite (Read_deliver_eq b p b1 ea HLb Hs). simpl.
    destruct H1 as (Hf & Hb & Hx & Hlive & Hdead).
    rewrite Hb. repeat split; auto.
    eexists. eexists. split; [reflexivity | split; [reflexivity|]].
    unfold alike. simpl. auto.
Qed.

Lemma alike_Reads ks :
  forall a b, alike a b ->
  fst (Reads (Some a) ks) = fst (Reads (Some b) ks).
Proof.
  induction ks as [|k ks IH]; intros a b Hab; [reflexivity|].
  cbn [Reads].
  destruct (alike_Read a b (make k) Hab)
    as (Hp & Hn & He & a' & b' & Ha & Hb & Hab').
  unfold rr_data. rewrite Hp, Hn, He, Ha, Hb.
  specialize (IH a' b' Hab').
  destruct (Reads (Some a') ks) as [ra sa].
  destruct (Reads (Some b') ks) as [rb sb].
  simpl in *. rewrite IH. reflexivity.
Qed.

(** X13.  Over steady sources whose records are short, what a row of
    calls of [Read] returns depends on the bytes of the source and on the
    error it ends on, not on the chunks in which the source hands its
    bytes over: two such sources with the same bytes and the same end give
    the same bytes and errors, call by call, whatever the filter and the
    sizes of the destinations. *)
Theorem source_chunks_do_not_matter rd1 rd2 f ks :
  steady rd1 = true -> steady rd2 = true ->
  forallb short (records (script_bytes rd1)) = true ->
  script_bytes rd1 = script_bytes rd2 -> script_err rd1 = script_err rd2 ->
  fst (Reads (NewStreamReader (Some rd1) f) ks)
  = fst (Reads (NewStreamReader (Some rd2) f) ks).
Proof.
  intros Hs1 Hs2 Hsh Hb He. cbn [NewStreamReader]. apply alike_Reads.
  unfold alike. cbn [filter buffer existsData scanner].
  destruct (tokens_records rd1 Hs1 Hsh) as [-> ->].
  rewrite Hb in Hsh.
  destruct (tokens_records rd2 Hs2 Hsh) as [-> ->].
  rewrite Hb, He. repeat split; auto.
Qed.

Definition src_chunked : Reader :=
  [(str "a", None); ([], None); (str "b" ++ [nl] ++ str "c", None);
   (str "d" ++ [nl], Some io_EOF)].

Lemma source_chunks_do_not_matter_witness :
  steady src_chunked = true /\ steady src1 = true
  /\ forallb short (records (script_bytes src_chunked)) = true
  /\ script_bytes src_chunked = script_bytes src1
  /\ script_err src_chunked = script_err src1
  /\ fst (Reads (NewStreamReader (Some src_chunked) None) [2; 2; 5])
     = fst (Reads (NewStreamReader (Some src1) None) [2; 2; 5]).
Proof.
  assert (H1 : steady src_chunked = true) by (vm_compute; reflexivity).
  assert (H2 : steady src1 = true) by (vm_compute; reflexivity).
  assert (H3 : forallb short (records (script_bytes src_chunked)) = true)
    by (vm_compute; reflexivity).
  split; [exact H1 | split; [exact H2 | split; [exact H3 |
    split; [reflexivity | split; [reflexivity|]]]]].
  apply (source_chunks_do_not_matter src_chunked src1 None [2; 2; 5]
           H1 H2 H3); reflexivity.
Defined.

(** Without these conditions the chunks do matter: a source that comes
    back with nothing once too often ends the reading with
    [io.ErrNoProgress], where a source that gives the same bytes at once
    is read to its end. *)
Example stalled_source_differs :
  script_bytes src_stalled = script_bytes src1
  /\ script_err src_stalled = script_err src1
  /\ steady src_stalled = false
  /\ fst (Reads (NewStreamReader (Some src_stalled) None) [5; 5])
     = [([], Some io_ErrNoProgress); ([], Some io_ErrNoProgress)]
  /\ fst (Reads (NewStreamReader (Some src1) None) [5; 5])
     = [(rec_ab, None); (rec_cd, None)].
Proof. repeat split; vm_compute; reflexivity. Qed.

(** ** Further properties of reading to the end *)

(** X14.  Over a steady source that ends cleanly and whose records are
    short, when the filter fails on no record, reading to the end with
    destinations of [k] bytes, [k] at least one, gives what the filter
    returned for the records, put end to end in the order of the source,
    and then [io.EOF]: records the filter rewrote come out rewritten,
    records it dropped leave no byte. *)
Theorem filtered_records_in_order rd f k :
  steady rd = true -> forallb short (records (script_bytes rd)) = true ->
  Forall (no_error f) (records (script_bytes rd)) ->
  script_err rd = io_EOF -> 0 < k ->
  exists fuel,
    ReadAll fuel k (NewStreamReader (Some rd) (Some f))
    = Some (accepted f (records (script_bytes rd)), io_EOF).
Proof.
  intros Hsd Hsh Hall Hfin Hk.
  pose proof (outcome_no_error f _ (script_err rd) Hall) as Hout.
  assert (Hend : end_of (script_err rd) = None) by (rewrite Hfin; reflexivity).
  rewrite Hend in Hout.
  destruct (ReadAll_New rd f k _ _ Hsd Hsh Hk Hout)
    as (fuel & out & HR & _ & Hc & _).
  exists fuel. rewrite HR, (Hc eq_refl). reflexivity.
Qed.

Lemma filtered_records_in_order_witness :
  steady src3 = true
  /\ forallb short (records (script_bytes src3)) = true
  /\ Forall (no_error dropB_double) (records (script_bytes src3))
  /\ script_err src3 = io_EOF /\ 0 < 2
  /\ accepted dropB_double (records (script_bytes src3))
     = rec_cd ++ rec_cd ++ rec_ef ++ rec_ef
  /\ exists fuel,
       ReadAll fuel 2 (NewStreamReader (Some src3) (Some dropB_double))
       = Some (accepted dropB_double (records (script_bytes src3)), io_EOF).
Proof.
  assert (H0 : steady src3 = true) by (vm_compute; reflexivity).
  assert (H1 : forallb short (records (script_bytes src3)) = true)
    by (vm_compute; reflexivity).
  assert (H : Forall (no_error dropB_double) (records (script_bytes src3))).
  { change (records (script_bytes src3)) with [rec_ab; rec_cd; rec_ef].
    repeat constructor. }
  split; [exact H0 | split; [exact H1 | split; [exact H |
    split; [reflexivity | split; [lia | split; [reflexivity|]]]]]].
  apply (filtered_records_in_order src3 dropB_double 2 H0 H1 H eq_refl). lia.
Defined.

Lemma accepted_JSONFilter V ts :
  Forall (fun t => t <> []) ts ->
  accepted (JSONFilter V) ts = concat (List.filter V ts).
Proof.
  unfold accepted, JSONFilter.
  induction 1 as [|t ts Ht _ IH]; simpl; [reflexivity|].
  destruct (V t); simpl; rewrite IH; reflexivity.
Qed.

(** X15.  Whatever [json.Valid] is, over a steady source whose records
    are short, reading the JSON-filtered stream to the end with
    destinations of [k] bytes, [k] at least one, ends on the error the
    source ends on and on no other, the filter never failing; the bytes
    delivered are a prefix of the records [json.Valid] accepts, put end to
    end in the order of the source, and all of them when the source ends
    cleanly. *)
Theorem json_stream_gives_valid_records (json_Valid : bytes -> bool) rd k :
  steady rd = true -> forallb short (records (script_bytes rd)) = true ->
  0 < k ->
  exists fuel out,
    ReadAll fuel k (rc_Reader (NewJSONFilterReadCloser json_Valid (Some rd)))
    = Some (out, script_err rd)
    /\ is_prefix out
         (concat (List.filter json_Valid (records (script_bytes rd))))
    /\ (script_err rd = io_EOF ->
        out = concat (List.filter json_Valid (records (script_bytes rd)))).
Proof.
  intros Hsd Hsh Hk.
  assert (Hall : Forall (no_error (JSONFilter json_Valid))
                   (records (script_bytes rd))).
  { apply Forall_forall. intros t _. unfold no_error, JSONFilter.
    destruct (json_Valid t); reflexivity. }
  pose proof (outcome_no_error _ _ (script_err rd) Hall) as Hout.
  rewrite accepted_JSONFilter in Hout.
  2: { eapply Forall_impl; [|apply records_shape]. simpl. tauto. }
  destruct (ReadAll_New rd _ k _ _ Hsd Hsh Hk Hout)
    as (fuel & out & HR & Hp & Hc & _).
  exists fuel, out. cbn [NewJSONFilterReadCloser NewReadCloser rc_Reader].
  rewrite HR. split; [|split; [exact Hp|]].
  - destruct (script_err rd); reflexivity.
  - intros He. apply Hc. rewrite He. reflexivity.
Qed.

Lemma json_stream_gives_valid_records_witness :
  steady (strings_NewReader json_test_data) = true
  /\ forallb short (records (script_bytes (strings_NewReader json_test_data)))
     = true
  /\ 0 < 3
  /\ exists fuel out,
       ReadAll fuel 3
         (rc_Reader (NewJSONFilterReadCloser Json.Valid
                       (Some (strings_NewReader json_test_data))))
       = Some (out, script_err (strings_NewReader json_test_data))
       /\ is_prefix out
            (concat (List.filter Json.Valid
                       (records (script_bytes
                                   (strings_NewReader json_test_data)))))
       /\ (script_err (strings_NewReader json_test_data) = io_EOF ->
           out = concat (List.filter Json.Valid
                           (records (script_bytes
                                       (strings_NewReader json_test_data))))).
Proof.
  assert (H0 : steady (strings_NewReader json_test_data) = true)
    by (vm_compute; reflexivity).
  assert (H1 : forallb short
                 (records (script_bytes (strings_NewReader json_test_data)))
               = true) by (vm_compute; reflexivity).
  split; [exact H0 | split; [exact H1 | split; [lia|]]].
  apply (json_stream_gives_valid_records Json.Valid
           (strings_NewReader json_test_data) 3 H0 H1).
  lia.
Defined.

(** ** The tee *)

(** X17.  With a [bytes.Buffer] as its sink, a tee is transparent and its
    sink is a faithful copy: in any row of reads and closes, each call
    returns what it returns on the source itself, the source is left in
    the same state, a close leaves the sink alone, and the sink holds, after
    what it held, the bytes the reads delivered, in order. *)
Theorem tee_is_transparent {R : Type} `{io_Reader R} `{io_Closer R}
  (ops : list op) (r : R) (w : bytes) :
  snd (run_tee ops (NewTeeReaderCloser r w)) = snd (run ops r)
  /\ tee_r (fst (run_tee ops (NewTeeReaderCloser r w))) = fst (run ops r)
  /\ tee_w (fst (run_tee ops (NewTeeReaderCloser r w)))
     = w ++ concat (map res_data (snd (run ops r))).
Proof.
  unfold NewTeeReaderCloser. revert r w.
  induction ops as [|[k|] ops IH]; intros r w.
  - simpl. rewrite app_nil_r. auto.
  - cbn [run_tee run]. unfold TeeReaderCloser_Read. cbn [tee_r tee_w].
    destruct (io_Read r (make k)) as [r' [[p' n] err]].
    destruct (0 <? n) eqn:En.
    + unfold io_Write, Buffer_Writer, Buffer_Write. cbv beta iota zeta.
      generalize (IH r' (w ++ firstn n p')).
      destruct (run_tee ops _) as [t'' rs].
      destruct (run ops r') as [r'' rs']. simpl.
      intros (H1 & H2 & H3). rewrite H1, H2, H3, <- app_assoc. auto.
    + apply Nat.ltb_ge in En.
      assert (n = 0) by lia. subst n.
      generalize (IH r' w).
      destruct (run_tee ops _) as [t'' rs].
      destruct (run ops r') as [r'' rs']. simpl.
      intros (H1 & H2 & H3). rewrite H1, H2, H3. auto.
  - cbn [run_tee run]. unfold TeeReaderCloser_Close. cbn [tee_r tee_w].
    destruct (io_Close r) as [r' e].
    generalize (IH r' w).
    destruct (run_tee ops _) as [t'' rs].
    destruct (run ops r') as [r'' rs']. simpl.
    intros (H1 & H2 & H3). rewrite H1, H2, H3. auto.
Qed.

(** Reading through a tee to the end. *)
Lemma ReadAllOf_tee {R : Type} `{io_Reader R} (k fuel : nat) :
  forall (r : R) (w : bytes),
    ReadAllOf fuel k (NewTeeReaderCloser r w)
    = match ReadAllOf fuel k r with
      | Some (out, e, r') =>
          Some (out, e, {| tee_r := r'; tee_w := w ++ out |})
      | None => None
      end.
Proof.
  unfold NewTeeReaderCloser.
  induction fuel as [|fuel IH]; intros r w; [reflexivity|].
  cbn [ReadAllOf].
  unfold io_Read at 1, TeeReaderCloser_Reader, TeeReaderCloser_Read.
  cbn [tee_r tee_w].
  destruct (io_Read r (make k)) as [r' [[p' n] err]].
  destruct (0 <? n) eqn:En.
  - unfold io_Write, Buffer_Writer, Buffer_Write. cbv beta iota zeta.
    destruct err as [e|]; [reflexivity|].
    rewrite IH. destruct (ReadAllOf fuel k r') as [[[out e] r'']|];
      [rewrite <- app_assoc|]; reflexivity.
  - apply Nat.ltb_ge in En. assert (n = 0) by lia. subst n.
    cbv beta iota zeta. simpl firstn.
    destruct err as [e|]; [rewrite app_nil_r; reflexivity|].
    rewrite IH. destruct (ReadAllOf fuel k r') as [[[out e] r'']|];
      reflexivity.
Qed.

Lemma ReadAllOf_stream k fuel :
  forall sr out e,
    ReadAll fuel k sr = Some (out, e) ->
    exists sr', ReadAllOf fuel k sr = Some (out, e, sr').
Proof.
  induction fuel as [|fuel IH]; intros sr out e; [discriminate|].
  cbn [ReadAll ReadAllOf]. unfold rr_data.
  change (io_Read sr (make k))
    with (rr_sr (Read sr (make k)),
          (rr_p (Read sr (make k)), rr_n (Read sr (make k)),
           rr_err (Read sr (make k)))).
  cbv beta iota zeta.
  destruct (rr_err (Read sr (make k))) as [e0|].
  - intros H; inversion H; subst. eauto.
  - destruct (ReadAll fuel k (rr_sr (Read sr (make k)))) as [[o e1]|] eqn:E;
      [|discriminate].
    intros H; inversion H; subst.
    destruct (IH _ _ _ E) as [sr' ->]. eauto.
Qed.

Lemma ReadAllOf_ReadCloser k fuel :
  forall rc out e sr',
    ReadAllOf fuel k (rc_Reader rc) = Some (out, e, sr') ->
    ReadAllOf fuel k rc
    = Some (out, e, {| rc_Reader := sr'; rc_Closer := rc_Closer rc |}).
Proof.
  induction fuel as [|fuel IH]; intros rc out e sr'; [discriminate|].
  cbn [ReadAllOf].
  change (io_Read rc (make k))
    with (let r := Read (rc_Reader rc) (make k) in
          ({| rc_Reader := rr_sr r; rc_Closer := rc_Closer rc |},
           (rr_p r, rr_n r, rr_err r))).
  change (io_Read (rc_Reader rc) (make k))
    with (rr_sr (Read (rc_Reader rc) (make k)),
          (rr_p (Read (rc_Reader rc) (make k)),
           rr_n (Read (rc_Reader rc) (make k)),
           rr_err (Read (rc_Reader rc) (make k)))).
  cbv beta iota zeta.
  destruct (rr_err (Read (rc_Reader rc) (make k))) as [e0|].
  - intros H; inversion H; subst. reflexivity.
  - destruct (ReadAllOf fuel k (rr_sr (Read (rc_Reader rc) (make k))))
      as [[[o e1] s1]|] eqn:E; [|discriminate].
    intros H; inversion H; subst.
    rewrite (IH {| rc_Reader := rr_sr (Read (rc_Reader rc) (make k));
                   rc_Closer := rc_Closer rc |} _ _ _ E).
    reflexivity.
Qed.

(** X18.  A tee over the JSON-filtered stream of a steady source that
    ends cleanly and whose records are short, read to the end with
    destinations of [k] bytes, [k] at least one, gives the reader the
    records [json.Valid] accepts, in the order of the source, then
    [io.EOF], and leaves in a [bytes.Buffer] sink, after what it held,
    these same bytes. *)
Theorem tee_over_json_stream (json_Valid : bytes -> bool) rd (w : bytes) k :
  steady rd = true -> forallb short (records (script_bytes rd)) = true ->
  0 < k -> script_err rd = io_EOF ->
  exists fuel t',
    ReadAllOf fuel k
      (NewTeeReaderCloser (NewJSONFilterReadCloser json_Valid (Some rd)) w)
    = Some (concat (List.filter json_Valid (records (script_bytes rd))),
            io_EOF, t')
    /\ tee_w t'
       = w ++ concat (List.filter json_Valid (records (script_bytes rd))).
Proof.
  intros Hsd Hsh Hk Hfin.
  assert (Hall : Forall (no_error (JSONFilter json_Valid))
                   (records (script_bytes rd))).
  { apply Forall_forall. intros t _. unfold no_error, JSONFilter.
    destruct (json_Valid t); reflexivity. }
  pose proof (outcome_no_error _ _ (script_err rd) Hall) as Hout.
  rewrite accepted_JSONFilter in Hout.
  2: { eapply Forall_impl; [|apply records_shape]. simpl. tauto. }
  assert (Hend : end_of (script_err rd) = None) by (rewrite Hfin; reflexivity).
  rewrite Hend in Hout.
  destruct (ReadAll_New rd _ k _ _ Hsd Hsh Hk Hout)
    as (fuel & out & HR & _ & Hc & _).
  rewrite (Hc eq_refl) in HR. cbn [reported] in HR.
  destruct (ReadAllOf_stream k fuel _ _ _ HR) as [sr' HS].
  exists fuel. eexists.
  rewrite ReadAllOf_tee.
  rewrite (ReadAllOf_ReadCloser k fuel
             (NewJSONFilterReadCloser json_Valid (Some rd)) _ _ sr' HS).
  split; reflexivity.
Qed.

Lemma tee_over_json_stream_witness :
  steady (strings_NewReader json_in) = true
  /\ forallb short (records (script_bytes (strings_NewReader json_in))) = true
  /\ 0 < 4 /\ script_err (strings_NewReader json_in) = io_EOF
  /\ exists fuel t',
       ReadAllOf fuel 4
         (NewTeeReaderCloser
            (NewJSONFilterReadCloser Json.Valid
               (Some (strings_NewReader json_in))) (str "log:"))
       = Some (concat (List.filter Json.Valid
                         (records (script_bytes (strings_NewReader json_in)))),
               io_EOF, t')
       /\ tee_w t'
          = str "log:"
            ++ concat (List.filter Json.Valid
                         (records (script_bytes
                                     (strings_NewReader json_in)))).
Proof.
  assert (H0 : steady (strings_NewReader json_in) = true)
    by (vm_compute; reflexivity).
  assert (H1 : forallb short
                 (records (script_bytes (strings_NewReader json_in))) = true)
    by (vm_compute; reflexivity).
  split; [exact H0 | split; [exact H1 | split; [lia |
    split; [reflexivity|]]]].
  apply (tee_over_json_stream Json.Valid (strings_NewReader json_in)
           (str "log:") 4 H0 H1);
    [lia | reflexivity].
Defined.

(** The tests of the tee, on the reader the tests use. *)
Example tee_test_read_partial :
  let t0 := NewTeeReaderCloser (newMockReadCloser (str "hello world"))
              ([] : bytes) in
  let '(t1, rs) := run_tee [OpRead 5; OpRead 10; OpRead 10] t0 in
  rs = [ResRead (str "hello") None; ResRead (str " world") None;
        ResRead [] (Some io_EOF)]
  /\ tee_w t1 = str "hello world".
Proof. split; reflexivity. Qed.

Example tee_test_close_with_error :
  let m := {| mrc_Reader := {| mr_data := str "test data"; mr_pos := 0 |};
              mrc_closed := false; mrc_err := Some (ErrOther 3) |} in
  let '(t1, rs) := run_tee [OpClose; OpRead 4]
                     (NewTeeReaderCloser m ([] : bytes)) in
  rs = [ResClose (Some (ErrOther 3)); ResRead (str "test") None]
  /\ mrc_closed (tee_r t1) = true /\ tee_w t1 = str "test".
Proof. repeat split. Qed.

(** ** No byte is lost or doubled *)






